(** * Favicon generator of CoralLedger.Blue: [scripts/create_favicons.py]

    The script renders a radial gradient disc plus a few accent strokes on
    three square canvases, saves them as PNG files and packs an icon bundle.
    This development embeds the script function by function and states the
    properties of its specification against that embedding.

    Conventions of the embedding:
    - Python [int] is [Z]; Python [float] is the kernel's binary64 [float],
      whose operations round to nearest-even exactly as CPython's do;
    - exceptions are values of [exn], carried by [result];
    - the mutable canvas behind [img] / [draw] is threaded as the state of
      the [Draw] monad, the file system as the state of the [Script] monad;
    - a Pillow image is represented by the calls that built it
      ([Image_new], drawing calls, [Image_open], [resize]); what Pillow's
      rasteriser and codecs do with them is kept as parameters. *)

From stdpp Require Import gmap strings list fin_maps.
From Stdlib Require Import ZArith Lia Floats.

Set Warnings "-inexact-float".
Local Open Scope Z_scope.

(** ** Exceptions and the state-and-error monad *)

Inductive exn : Type :=
| ZeroDivisionError
| OverflowError
| ValueError
| IndexError
| FileNotFoundError
| FileExistsError
| NotADirectoryError
| IsADirectoryError.

Inductive result (A : Type) : Type :=
| Ok (a : A)
| Raise (e : exn).
Arguments Ok {A} a.
Arguments Raise {A} e.

Definition SE (S A : Type) : Type := S -> result (A * S).

Definition ret {S A : Type} (a : A) : SE S A := fun s => Ok (a, s).

Definition bind {S A B : Type} (m : SE S A) (k : A -> SE S B) : SE S B :=
  fun s => match m s with
           | Ok (a, s') => k a s'
           | Raise e => Raise e
           end.

Definition lift {S A : Type} (r : result A) : SE S A :=
  fun s => match r with
           | Ok a => Ok (a, s)
           | Raise e => Raise e
           end.

Definition gets {S A : Type} (f : S -> A) : SE S A := fun s => Ok (f s, s).

Definition modify {S : Type} (f : S -> S) : SE S unit := fun s => Ok (tt, f s).

Declare Scope se_scope.
Delimit Scope se_scope with se.
Notation "x <- m ;; k" := (bind m (fun x => k))
  (at level 100, m at next level, k at level 200, right associativity) : se_scope.
Notation "'unpack' p <- m ;; k" := (bind m (fun x => let 'p := x in k))
  (at level 100, p pattern, m at next level, k at level 200, right associativity) : se_scope.
Notation "m ;; k" := (bind m (fun _ => k))
  (at level 100, k at level 200, right associativity) : se_scope.
Local Open Scope se_scope.

(** [for x in xs: body x] *)
Fixpoint for_ {S A : Type} (xs : list A) (body : A -> SE S unit) : SE S unit :=
  match xs with
  | [] => ret tt
  | x :: rest => body x ;; for_ rest body
  end.

(** ** Python numbers *)

(** [float(z)] for an [int]: the nearest binary64, exact for [|z| <= 2^53]
    (every coordinate and channel of this program). *)
Definition of_int (z : Z) : float := SF2Prim (binary_normalize prec emax z 0 false).

Inductive pynum : Type :=
| PyInt (z : Z)
| PyFloat (f : float).
Coercion PyInt : Z >-> pynum.
Coercion PyFloat : float >-> pynum.

Definition to_float (a : pynum) : float :=
  match a with
  | PyInt z => of_int z
  | PyFloat f => f
  end.

(** Binary arithmetic: [int] with [int] stays [int], anything else is
    computed in binary64 after converting the [int] operand. *)
Definition py_add (a b : pynum) : pynum :=
  match a, b with
  | PyInt x, PyInt y => PyInt (x + y)
  | _, _ => PyFloat (to_float a + to_float b)%float
  end.

Definition py_sub (a b : pynum) : pynum :=
  match a, b with
  | PyInt x, PyInt y => PyInt (x - y)
  | _, _ => PyFloat (to_float a - to_float b)%float
  end.

Definition py_mul (a b : pynum) : pynum :=
  match a, b with
  | PyInt x, PyInt y => PyInt (x * y)
  | _, _ => PyFloat (to_float a * to_float b)%float
  end.

Declare Scope py_scope.
Delimit Scope py_scope with py.
Bind Scope py_scope with pynum.
Notation "a + b" := (py_add a b) : py_scope.
Notation "a - b" := (py_sub a b) : py_scope.
Notation "a * b" := (py_mul a b) : py_scope.

(** [a / b] on two [int]s: true division. *)
Definition py_truediv (a b : Z) : result float :=
  if b =? 0 then Raise ZeroDivisionError
  else Ok (of_int a / of_int b)%float.

(** Truncation toward zero of a finite binary64. *)
Definition trunc_finite (s : bool) (m : positive) (e : Z) : Z :=
  let a := if 0 <=? e then Z.shiftl (Z.pos m) e else Z.shiftr (Z.pos m) (- e) in
  if s then - a else a.

(** [int(x)] *)
Definition py_int (x : pynum) : result Z :=
  match x with
  | PyInt z => Ok z
  | PyFloat f =>
      match Prim2SF f with
      | S754_zero _ => Ok 0
      | S754_finite s m e => Ok (trunc_finite s m e)
      | S754_infinity _ => Raise OverflowError
      | S754_nan => Raise ValueError
      end
  end.

(** [range(start, stop, step)]; the script only uses a literal non-zero
    step (a zero step, a [ValueError] in Python, yields no element here). *)
Definition py_range (start stop step : Z) : list Z :=
  let n := if 0 <? step then (stop - start + step - 1) / step
           else if step <? 0 then (start - stop - step - 1) / (- step)
           else 0 in
  map (fun k : nat => start + Z.of_nat k * step) (seq 0 (Z.to_nat n)).

(** ** Pillow values *)

(** A colour as the script passes it: a 3-tuple or a 4-tuple. *)
Inductive ink : Type :=
| RGB (r g b : Z)
| RGBA (r g b a : Z).

(** What an RGBA canvas stores for an ink: a 3-tuple is fully opaque. *)
Definition rgba (c : ink) : Z * Z * Z * Z :=
  match c with
  | RGB r g b => (r, g, b, 255)
  | RGBA r g b a => (r, g, b, a)
  end.

(** The [xy] argument of a drawing call: [(x0, y0, x1, y1)]. *)
Inductive box : Type := Box (x0 y0 x1 y1 : pynum).

Inductive draw_op : Type :=
| Ellipse (xy : box) (fill : ink)
| Arc (xy : box) (start end_ : Z) (fill : ink) (width : Z).

Inductive filter : Type := LANCZOS.

Definition bytes : Type := list Byte.byte.

Inductive Image : Type :=
| Image_new (mode : string) (size : Z * Z) (color : ink)
| Image_draw (img : Image) (op : draw_op)
| Image_open (size : Z * Z) (data : bytes)
| Image_resize (img : Image) (size : Z * Z) (resample : filter).

Fixpoint Image_size (img : Image) : Z * Z :=
  match img with
  | Image_new _ size _ => size
  | Image_draw img' _ => Image_size img'
  | Image_open size _ => size
  | Image_resize _ size _ => size
  end.

Definition width (img : Image) : Z := fst (Image_size img).
Definition height (img : Image) : Z := snd (Image_size img).

(** Drawing happens through [draw = ImageDraw.Draw(img)], which aliases
    [img]: every call updates that one canvas. *)
Definition Draw (A : Type) : Type := SE Image A.

Definition ellipse (xy : box) (fill : ink) : Draw unit :=
  modify (fun img => Image_draw img (Ellipse xy fill)).

Definition arc (xy : box) (start end_ : Z) (fill : ink) (width : Z) : Draw unit :=
  modify (fun img => Image_draw img (Arc xy start end_ fill width)).

(** ** The script: constants and the two renderers *)

Definition colors : list (list Z) := [[46; 227; 255]; [0; 197; 161]].
Definition background : ink := RGB 5 12 26.

(** [colors[j][k]] *)
Definition colors_ (j k : nat) : Z := nth k (nth j colors []) 0.

Definition draw_circle_gradient : Draw (Z * Z * Z) :=
  size <- gets width ;;
  let cx := size / 2 in
  let cy := cx in
  radius <- lift (py_int (size * 0.4%float)%py) ;;
  for_ (py_range radius 0 (-1)) (fun i =>
    ratio <- lift (py_truediv i radius) ;;
    r <- lift (py_int (colors_ 0 0 * ratio + colors_ 1 0 * (1 - ratio))%py) ;;
    g <- lift (py_int (colors_ 0 1 * ratio + colors_ 1 1 * (1 - ratio))%py) ;;
    b <- lift (py_int (colors_ 0 2 * ratio + colors_ 1 2 * (1 - ratio))%py) ;;
    ellipse (Box (cx - i) (cy - i) (cx + i) (cy + i)) (RGBA r g b 255)) ;;
  ret (radius, cx, cy).

Definition draw_accent (radius cx cy size : Z) : Draw unit :=
  let width := Z.max 1 (size / 16) in
  arc (Box (cx - radius * 0.7%float) (cy - radius * 0.3%float)
           (cx + radius * 0.7%float) (cy + radius * 0.5%float))
      200 340 (RGB 244 251 255) width ;;
  arc (Box (cx - radius * 0.6%float) (cy - radius * 0.1%float)
           (cx + radius * 0.6%float) (cy + radius * 0.9%float))
      120 220 (RGB 18 168 195) (Z.max 2 (size / 12)) ;;
  highlight <- lift (py_int (radius * 0.25%float)%py) ;;
  ellipse (Box (cx - highlight) (cy - highlight * 0.6%float)
               (cx - highlight * 0.2%float) cy)
          (RGB 244 251 255).

(** ** Files *)

(** A path is the list of its components; [logo_dir / filename] appends one. *)
Abbreviation path := (list string).
Definition joinpath (p : path) (name : string) : path := p ++ [name].
Definition parent (p : path) : path := removelast p.

Inductive node : Type :=
| Dir
| File (data : bytes).

(** What the run does to the file system, in order. *)
Inductive event : Type :=
| EvMkdir (p : path)
| EvWrite (p : path) (data : bytes)
| EvRead (p : path).

Record World : Type := mkWorld {
  fs : gmap path node;
  events : list event
}.

Definition Script (A : Type) : Type := SE World A.

(** The root (the empty path) is always a directory. *)
Definition node_at (m : gmap path node) (p : path) : option node :=
  match p with
  | [] => Some Dir
  | _ => m !! p
  end.

Definition is_dir (m : gmap path node) (p : path) : bool :=
  match node_at m p with
  | Some Dir => true
  | _ => false
  end.

Definition is_file (m : gmap path node) (p : path) : bool :=
  match node_at m p with
  | Some (File _) => true
  | _ => false
  end.

(** [os.mkdir(p)] *)
Definition os_mkdir (p : path) (m : gmap path node) : result (gmap path node) :=
  match node_at m p with
  | Some _ => Raise FileExistsError
  | None =>
      match node_at m (parent p) with
      | None => Raise FileNotFoundError
      | Some (File _) => Raise NotADirectoryError
      | Some Dir => Ok (<[p := Dir]> m)
      end
  end.

(** [Path.mkdir(parents=False, exist_ok=...)]: an existing directory is
    accepted under [exist_ok]; a missing parent is an error. *)
Definition mkdir_flat (p : path) (exist_ok : bool) (m : gmap path node)
  : result (gmap path node) :=
  match os_mkdir p m with
  | Ok m' => Ok m'
  | Raise FileNotFoundError => Raise FileNotFoundError
  | Raise e => if exist_ok && is_dir m p then Ok m else Raise e
  end.

(** [Path.mkdir(parents=..., exist_ok=...)] as pathlib writes it: try the
    directory itself, and on a missing parent create the parent first (with
    [parents=True, exist_ok=True]) and try again. The path is given from its
    last component to its first, so that the parent is a sub-term. *)
Fixpoint mkdir_rev (rp : list string) (parents exist_ok : bool) (m : gmap path node)
  : result (gmap path node) :=
  match mkdir_flat (rev rp) exist_ok m with
  | Raise FileNotFoundError =>
      match rp with
      | [] => Raise FileNotFoundError
      | _ :: rparent =>
          if parents then
            match mkdir_rev rparent true true m with
            | Ok m1 => mkdir_flat (rev rp) exist_ok m1
            | Raise e => Raise e
            end
          else Raise FileNotFoundError
      end
  | r => r
  end.

Definition Path_mkdir (p : path) (parents exist_ok : bool) : Script unit :=
  fun w => match mkdir_rev (rev p) parents exist_ok (fs w) with
           | Ok m => Ok (tt, mkWorld m (events w ++ [EvMkdir p]))
           | Raise e => Raise e
           end.

(** Opening [p] for writing and storing [data] in it. *)
Definition write_file (p : path) (data : bytes) : Script unit :=
  fun w => match node_at (fs w) (parent p) with
           | None => Raise FileNotFoundError
           | Some (File _) => Raise NotADirectoryError
           | Some Dir =>
               match node_at (fs w) p with
               | Some Dir => Raise IsADirectoryError
               | _ => Ok (tt, mkWorld (<[p := File data]> (fs w))
                                      (events w ++ [EvWrite p data]))
               end
           end.

Definition read_file (p : path) : Script bytes :=
  fun w => match node_at (fs w) p with
           | None => Raise FileNotFoundError
           | Some Dir => Raise IsADirectoryError
           | Some (File data) => Ok (data, mkWorld (fs w) (events w ++ [EvRead p]))
           end.

(** [xs[i]] *)
Definition py_index {A : Type} (xs : list A) (i : nat) : result A :=
  match nth_error xs i with
  | Some x => Ok x
  | None => Raise IndexError
  end.

(** ** The script: export loop and icon bundle *)

(** Pillow's codecs, which the script calls and does not define: the PNG
    encoder behind [img.save], the header read by [Image.open], and the ICO
    encoder behind [save(..., format="ICO", sizes=...)]. *)
Class Pillow : Type := {
  png_encode : Image -> bytes;
  png_size : bytes -> Z * Z;
  ico_encode : Image -> list (Z * Z) -> bytes
}.

Definition logo_dir : path :=
  ["C:"; "Projects"; "CoralLedgerBlue"; "src"; "CoralLedger.Blue.Web";
   "wwwroot"; "images"; "logos"; "favicons"].

Definition exports : list (Z * string) :=
  [(16, "favicon-16x16.png"); (32, "favicon-32x32.png"); (180, "apple-touch-icon.png")].

Definition ico_sizes : list (Z * Z) := [(16, 16); (32, 32); (64, 64)].

(** Running a renderer on the canvas [img]. *)
Definition draw_on {A : Type} (img : Image) (d : Draw A) : Script (A * Image) :=
  lift (d img).

Section Script.
Context `{Pillow}.

Definition Image_save (img : Image) (p : path) : Script unit :=
  write_file p (png_encode img).

(** [Image.open(p)] *)
Definition Image_open_path (p : path) : Script Image :=
  data <- read_file p ;;
  ret (Image_open (png_size data) data).

Definition Image_save_ico (img : Image) (p : path) (sizes : list (Z * Z)) : Script unit :=
  write_file p (ico_encode img sizes).

(** The body of the [for size, filename in [...]] loop. *)
Definition export_one (item : Z * string) : Script unit :=
  let '(size, filename) := item in
  let img := Image_new "RGBA" (size, size) background in
  unpack (radius, cx, cy, img) <- draw_on img draw_circle_gradient ;;
  unpack (_, img) <- draw_on img (draw_accent radius cx cy size) ;;
  Image_save img (joinpath logo_dir filename).

(** The whole script, top to bottom. *)
Definition main : Script unit :=
  Path_mkdir logo_dir true true ;;
  for_ exports export_one ;;
  base <- Image_open_path (joinpath logo_dir "favicon-32x32.png") ;;
  let icons := map (fun size => Image_resize base size LANCZOS) ico_sizes in
  icon0 <- lift (py_index icons 0) ;;
  Image_save_ico icon0 (joinpath logo_dir "favicon.ico") ico_sizes.

End Script.

(** A stand-in for the codecs, used only to run the script on concrete
    worlds: it stores the dimensions of the image and nothing else. *)
Definition byte_of (z : Z) : Byte.byte :=
  default Byte.x00 (Byte.of_N (Z.to_N (z mod 256))).

Definition dims_encode (img : Image) : bytes :=
  [byte_of (width img); byte_of (height img)].

Definition dims_decode (data : bytes) : Z * Z :=
  match data with
  | [w; h] => (Z.of_N (Byte.to_N w), Z.of_N (Byte.to_N h))
  | _ => (0, 0)
  end.

Definition dims_codec : Pillow := {|
  png_encode := dims_encode;
  png_size := dims_decode;
  ico_encode := fun img sizes =>
    dims_encode img ++ flat_map (fun s => [byte_of (fst s); byte_of (snd s)]) sizes
|}.

Definition empty_world : World := mkWorld ∅ [].

(** ** Pixels of a gradient canvas *)

(** Which pixels a filled ellipse covers is decided by Pillow's rasteriser.
    It is a parameter here; [getpixel] reads a pixel of a canvas built from
    [Image.new] and filled ellipses with integer boxes, and is undefined
    ([None]) outside the canvas and for every other image. *)
Section Raster.
Variable covers : Z -> Z -> Z -> Z -> Z -> Z -> bool.

Fixpoint getpixel (img : Image) (x y : Z) : option (Z * Z * Z * Z) :=
  match img with
  | Image_new _ (w, h) c =>
      if (0 <=? x) && (x <? w) && (0 <=? y) && (y <? h) then Some (rgba c) else None
  | Image_draw img' (Ellipse (Box (PyInt x0) (PyInt y0) (PyInt x1) (PyInt y1)) c) =>
      match getpixel img' x y with
      | Some old => Some (if covers x0 y0 x1 y1 x y then rgba c else old)
      | None => None
      end
  | _ => None
  end.

(** What the properties below rely on, for a box [(x0, y0, x1, y1)] whose
    sides have even length: the ellipse stays inside its box, covers the
    centre of the box and reaches the middle of each side. *)
Definition ellipse_contract : Prop :=
  (forall x0 y0 x1 y1 x y,
      covers x0 y0 x1 y1 x y = true -> x0 <= x <= x1 /\ y0 <= y <= y1) /\
  (forall cx cy i, 1 <= i ->
      covers (cx - i) (cy - i) (cx + i) (cy + i) cx cy = true) /\
  (forall cx cy i, 1 <= i ->
      covers (cx - i) (cy - i) (cx + i) (cy + i) (cx + i) cy = true /\
      covers (cx - i) (cy - i) (cx + i) (cy + i) (cx - i) cy = true /\
      covers (cx - i) (cy - i) (cx + i) (cy + i) cx (cy + i) = true /\
      covers (cx - i) (cy - i) (cx + i) (cy + i) cx (cy - i) = true).

End Raster.

(** The geometric ellipse inscribed in the box: one rasteriser that meets
    [ellipse_contract]. *)
Definition disc_covers (x0 y0 x1 y1 x y : Z) : bool :=
  let w := x1 - x0 in
  let h := y1 - y0 in
  (x0 <=? x) && (x <=? x1) && (y0 <=? y) && (y <=? y1) &&
  ((2 * x - x0 - x1) ^ 2 * h ^ 2 + (2 * y - y0 - y1) ^ 2 * w ^ 2 <=? w ^ 2 * h ^ 2).

(** ** The gradient as the specification words it *)

Definition and_then {A B : Type} (r : result A) (k : A -> result B) : result B :=
  match r with
  | Ok a => k a
  | Raise e => Raise e
  end.

Fixpoint map_result {A B : Type} (f : A -> result B) (xs : list A) : result (list B) :=
  match xs with
  | [] => Ok []
  | x :: rest =>
      and_then (f x) (fun b => and_then (map_result f rest) (fun bs => Ok (b :: bs)))
  end.

(** [radius, radius - 1, ..., 1] *)
Definition countdown (radius : Z) : list Z :=
  map (fun k : nat => radius - Z.of_nat k) (seq 0 (Z.to_nat radius)).

(** [trunc(a * ratio + b * (1 - ratio))] *)
Definition blend (a b : Z) (ratio : float) : result Z :=
  py_int (a * ratio + b * (1 - ratio))%py.

(** The fill of ring [i]: the three blended channels, fully opaque. *)
Definition ring_fill (radius i : Z) : result ink :=
  and_then (py_truediv i radius) (fun ratio =>
  and_then (blend 46 0 ratio) (fun r =>
  and_then (blend 227 197 ratio) (fun g =>
  and_then (blend 255 161 ratio) (fun b =>
  Ok (RGBA r g b 255))))).

(** The disc of radius [i] around [(cx, cy)] with that fill. *)
Definition ring (radius cx cy i : Z) : result draw_op :=
  and_then (ring_fill radius i) (fun fill =>
  Ok (Ellipse (Box (cx - i) (cy - i) (cx + i) (cy + i)) fill)).

Definition gradient_spec (size radius : Z) (img : Image) : result (Z * Z * Z * Image) :=
  and_then (map_result (ring radius (size / 2) (size / 2)) (countdown radius)) (fun ops =>
  Ok (radius, size / 2, size / 2, fold_left Image_draw ops img)).

(** The canvas of one export, before it is saved. *)
Definition render (size : Z) : result Image :=
  match draw_circle_gradient (Image_new "RGBA" (size, size) background) with
  | Ok (radius, cx, cy, img) =>
      match draw_accent radius cx cy size img with
      | Ok (_, img') => Ok img'
      | Raise e => Raise e
      end
  | Raise e => Raise e
  end.

(** The drawing calls a canvas has received, oldest first. *)
Fixpoint calls (img : Image) : list draw_op :=
  match img with
  | Image_draw img' op => calls img' ++ [op]
  | _ => []
  end.

Definition stroke_width (op : draw_op) : option Z :=
  match op with
  | Arc _ _ _ _ w => Some w
  | Ellipse _ _ => None
  end.

Definition between (lo hi v : Z) : bool := (lo <=? v) && (v <=? hi).

(** The fill of ring [i] is defined, opaque, channel by channel between the
    two brand colours, and the first brand colour itself on the rim. *)
Definition fill_in_range (radius i : Z) : bool :=
  match ring_fill radius i with
  | Ok (RGBA r g b a) =>
      between (Z.min (colors_ 0 0) (colors_ 1 0)) (Z.max (colors_ 0 0) (colors_ 1 0)) r &&
      between (Z.min (colors_ 0 1) (colors_ 1 1)) (Z.max (colors_ 0 1) (colors_ 1 1)) g &&
      between (Z.min (colors_ 0 2) (colors_ 1 2)) (Z.max (colors_ 0 2) (colors_ 1 2)) b &&
      (a =? 255) &&
      (if i =? radius
       then (r =? colors_ 0 0) && (g =? colors_ 0 1) && (b =? colors_ 0 2)
       else true)
  | _ => false
  end.


(** The second brand colour itself is not the fill of ring [i]. *)
Definition not_second_colour (radius i : Z) : bool :=
  match ring_fill radius i with
  | Ok (RGBA r g b _) => negb ((r =? colors_ 1 0) && (g =? colors_ 1 1) && (b =? colors_ 1 2))
  | _ => false
  end.

(** [int(size * 0.4)] is the floor of two fifths of [size]. *)
Definition radius_is_floor (size : Z) : bool :=
  match py_int (size * 0.4%float)%py with
  | Ok radius => radius =? 2 * size / 5
  | Raise _ => false
  end.


(** Some ring of the gradient of this radius is filled with the second brand
    colour itself. *)
Definition paints_second (radius : Z) : bool :=
  existsb (fun i => negb (not_second_colour radius i)) (countdown radius).

(** Two stored colours agree within 1 on each of the red, green and blue
    channels. *)
Definition within1 (p q : Z * Z * Z * Z) : Prop :=
  let '(r, g, b, _) := p in
  let '(r', g', b', _) := q in
  Z.abs (r - r') <= 1 /\ Z.abs (g - g') <= 1 /\ Z.abs (b - b') <= 1.

(** The centre-and-rim property in the specification's wording: after the
    gradient is drawn on the canvas of side [size], the centre pixel is the
    first brand colour within 1 per channel, and the pixels at distance
    exactly [radius] from the centre hold the second brand colour. *)
Definition centre_first_rim_second (covers : Z -> Z -> Z -> Z -> Z -> Z -> bool)
    (size : Z) : Prop :=
  exists radius cx cy img,
    draw_circle_gradient (Image_new "RGBA" (size, size) background)
    = Ok (radius, cx, cy, img) /\
    (exists p, getpixel covers img cx cy = Some p /\
               within1 p (colors_ 0 0, colors_ 0 1, colors_ 0 2, 255)) /\
    (forall x y, (x - cx) ^ 2 + (y - cy) ^ 2 = radius ^ 2 ->
                 getpixel covers img x y
                 = Some (colors_ 1 0, colors_ 1 1, colors_ 1 2, 255)).

(** What the code gives instead: the centre pixel holds [centre] and the
    pixels at distance exactly [radius] from the centre hold the first brand
    colour. *)
Definition centre_and_rim (covers : Z -> Z -> Z -> Z -> Z -> Z -> bool)
    (size : Z) (centre : Z * Z * Z * Z) : Prop :=
  exists radius cx cy img,
    draw_circle_gradient (Image_new "RGBA" (size, size) background)
    = Ok (radius, cx, cy, img) /\
    getpixel covers img cx cy = Some centre /\
    (forall x y, (x - cx) ^ 2 + (y - cy) ^ 2 = radius ^ 2 ->
                 getpixel covers img x y
                 = Some (colors_ 0 0, colors_ 0 1, colors_ 0 2, 255)).

(** The only lattice points on the circle of this radius are the four on
    the axes. *)
Definition axis_only (radius : Z) : bool :=
  forallb (fun a =>
    forallb (fun b => implb (a * a + b * b =? radius * radius) ((a =? 0) || (b =? 0)))
            (0 :: countdown radius))
    (0 :: countdown radius).

(** ** Vocabulary for the file-system properties *)

(** The names the script writes under [logo_dir]. *)
Definition output_names : list string := map snd exports ++ ["favicon.ico"].

(** Every node sits in a directory. *)
Definition fs_wf (m : gmap path node) : Prop :=
  forall p n, m !! p = Some n -> is_dir m (parent p) = true.

(** [m'] is [m] with some missing directories added, all of them at
    prefixes of [p]. *)
Definition dirs_added (p : path) (m m' : gmap path node) : Prop :=
  forall q, m' !! q = m !! q \/ (q `prefix_of` p /\ m !! q = None /\ m' !! q = Some Dir).

(** [img] is the canvas of side [size] after both renderers: a fresh square
    RGBA canvas filled with the background colour, then the gradient, then
    the accent. *)
Definition rendered (size : Z) (img : Image) : Prop :=
  exists radius cx cy g,
    draw_circle_gradient (Image_new "RGBA" (size, size) background) = Ok (radius, cx, cy, g) /\
    draw_accent radius cx cy size g = Ok (tt, img).

(** The files directly under [logo_dir] are exactly the four outputs. *)
Definition exactly_four_outputs (m : gmap path node) : Prop :=
  forall name, is_file m (joinpath logo_dir name) = true <-> In name output_names.

(** The non-empty prefixes of a path: the directories above it and itself. *)
Definition ancestors (p : path) : list path :=
  map (fun n => take n p) (seq 1 (length p)).

(** A world in which [logo_dir] already exists and holds one other file. *)
Definition populated_world : World :=
  mkWorld (<[joinpath logo_dir "site.webmanifest" := File []]>
             (list_to_map (map (fun q => (q, Dir)) (ancestors logo_dir))))
          [].

(** The paths written by a sequence of events, in order. *)
Definition written (es : list event) : list path :=
  omap (fun e => match e with EvWrite p _ => Some p | _ => None end) es.

(** The world a run of the script with the stand-in codecs leaves. *)
Definition after_run (w : World) : World :=
  match @main dims_codec w with
  | Ok (_, w') => w'
  | Raise _ => w
  end.

(** Pillow's documented rule for [save(..., format="ICO", sizes=...)]: a
    requested size larger than the image being saved, or larger than 256, is
    ignored. *)
Definition ico_sizes_kept (img : Image) (sizes : list (Z * Z)) : list (Z * Z) :=
  List.filter (fun s => (fst s <=? width img) && (snd s <=? height img) &&
                        (fst s <=? 256) && (snd s <=? 256)) sizes.

(** The box of a drawing call, and whether all of it lies in the square
    [lo..hi] x [lo..hi]. *)
Definition op_box (op : draw_op) : box :=
  match op with
  | Ellipse xy _ => xy
  | Arc xy _ _ _ _ => xy
  end.

Definition coord_inside (lo hi : Z) (c : pynum) : bool :=
  (of_int lo <=? to_float c)%float && (to_float c <=? of_int hi)%float.

Definition box_inside (lo hi : Z) (xy : box) : bool :=
  let 'Box x0 y0 x1 y1 := xy in
  coord_inside lo hi x0 && coord_inside lo hi y0 &&
  coord_inside lo hi x1 && coord_inside lo hi y1.

(** ** Vocabulary for the geometry of the drawing calls *)

(** A coordinate lies between two integers; integers are compared as
    integers, floats as floats. *)
Definition coord_within (lo hi : Z) (c : pynum) : bool :=
  match c with
  | PyInt z => (lo <=? z) && (z <=? hi)
  | PyFloat f => (of_int lo <=? f)%float && (f <=? of_int hi)%float
  end.

Definition box_within (lo hi : Z) (xy : box) : bool :=
  let 'Box x0 y0 x1 y1 := xy in
  coord_within lo hi x0 && coord_within lo hi y0 &&
  coord_within lo hi x1 && coord_within lo hi y1.

Definition coord_leb (a b : pynum) : bool :=
  match a, b with
  | PyInt x, PyInt y => x <=? y
  | _, _ => (to_float a <=? to_float b)%float
  end.

(** [x0 <= x1] and [y0 <= y1], which Pillow requires of a box. *)
Definition box_ordered (xy : box) : bool :=
  let 'Box x0 y0 x1 y1 := xy in
  coord_leb x0 x1 && coord_leb y0 y1.

(** The calls the accent renderer makes, read off a run on a fresh canvas. *)
Definition accent_calls (radius cx cy size : Z) : result (list draw_op) :=
  match draw_accent radius cx cy size (Image_new "RGBA" (size, size) background) with
  | Ok (_, img) => Ok (calls img)
  | Raise e => Raise e
  end.

(** On the canvas of side [size] the accent makes three calls, each with an
    ordered box inside the canvas and inside the box of the gradient disc,
    and the highlight is a quarter of the radius, rounded down. *)
Definition accent_inside (size : Z) : bool :=
  let radius := 2 * size / 5 in
  let c := size / 2 in
  match accent_calls radius c c size, py_int (radius * 0.25%float)%py with
  | Ok ops, Ok highlight =>
      (length ops =? 3)%nat && (highlight =? radius / 4) &&
      forallb (fun op => box_ordered (op_box op) &&
                         box_within 0 (size - 1) (op_box op) &&
                         box_within (c - radius) (c + radius) (op_box op)) ops
  | _, _ => false
  end.

(** ** Vocabulary for the colours of the rings *)

(** A stored pixel is opaque and each of its colour channels is a byte. *)
Definition opaque_byte_pixel (p : Z * Z * Z * Z) : Prop :=
  let '(r, g, b, a) := p in
  0 <= r <= 255 /\ 0 <= g <= 255 /\ 0 <= b <= 255 /\ a = 255.

(** The blend of [a] and [b] at ring [i] in exact arithmetic, rounded down. *)
Definition exact_blend (a b radius i : Z) : Z := (a * i + b * (radius - i)) / radius.

(** Ring [i] is no lighter than ring [i + 1] on any channel, and each of its
    channels is the exact blend or one less. *)
Definition ring_step_ok (radius i : Z) : bool :=
  match ring_fill radius i with
  | Ok (RGBA r g b _) =>
      between (exact_blend (colors_ 0 0) (colors_ 1 0) radius i - 1)
              (exact_blend (colors_ 0 0) (colors_ 1 0) radius i) r &&
      between (exact_blend (colors_ 0 1) (colors_ 1 1) radius i - 1)
              (exact_blend (colors_ 0 1) (colors_ 1 1) radius i) g &&
      between (exact_blend (colors_ 0 2) (colors_ 1 2) radius i - 1)
              (exact_blend (colors_ 0 2) (colors_ 1 2) radius i) b &&
      (if i <? radius then
         match ring_fill radius (i + 1) with
         | Ok (RGBA r' g' b' _) => (r <=? r') && (g <=? g') && (b <=? b')
         | _ => false
         end
       else true)
  | _ => false
  end.

(** The colour a drawing call paints with. *)
Definition op_fill (op : draw_op) : ink :=
  match op with
  | Ellipse _ fill => fill
  | Arc _ _ _ fill _ => fill
  end.

(** [c1] is no lighter than [c2] on the red, green and blue channels. *)
Definition ink_leb (c1 c2 : ink) : bool :=
  let '(r1, g1, b1, _) := rgba c1 in
  let '(r2, g2, b2, _) := rgba c2 in
  (r1 <=? r2) && (g1 <=? g2) && (b1 <=? b2).

(** A world whose only node is a file where the first directory of
    [logo_dir] should be. *)
Definition blocked_world : World := mkWorld {[ ["C:"] := File [] ]} [].

(** * Properties *)

(** ** The monad and the loop *)

Lemma bind_Ok_inv {S A B : Type} (m : SE S A) (k : A -> SE S B) (s : S) (r : B * S) :
  bind m k s = Ok r -> exists a s', m s = Ok (a, s') /\ k a s' = Ok r.
Proof.
  unfold bind. destruct (m s) as [[a s']|e]; [eauto | discriminate].
Qed.

Lemma bind_Ok {S A B : Type} (m : SE S A) (k : A -> SE S B) (s s' : S) (a : A) :
  m s = Ok (a, s') -> bind m k s = k a s'.
Proof. unfold bind. now intros ->. Qed.

Lemma bind_Raise {S A B : Type} (m : SE S A) (k : A -> SE S B) (s : S) (e : exn) :
  m s = Raise e -> bind m k s = Raise e.
Proof. unfold bind. now intros ->. Qed.

(** An exception of the whole loop is an exception of one of its rounds. *)
Lemma for_Raise_inv {S A : Type} (xs : list A) (body : A -> SE S unit) (s : S) (e : exn) :
  for_ xs body s = Raise e -> exists x s', In x xs /\ body x s' = Raise e.
Proof.
  revert s. induction xs as [|x rest IH]; intros s; simpl.
  - discriminate.
  - unfold bind at 1. destruct (body x s) as [[[] s1]|e1] eqn:Hx.
    + intros Hrest. destruct (IH _ Hrest) as (y & s' & Hy & Hbody). eauto.
    + intros [= ->]. eauto.
Qed.

Lemma py_range_countdown (radius : Z) : py_range radius 0 (-1) = countdown radius.
Proof.
  unfold py_range, countdown.
  change (0 <? -1) with false. change (-1 <? 0) with true. cbv iota.
  change (- (-1)) with 1. rewrite Z.div_1_r.
  replace (radius - 0 - -1 - 1) with radius by lia.
  apply map_ext. intros k. lia.
Qed.

Lemma countdown_bounds (radius i : Z) : In i (countdown radius) -> 1 <= i <= radius.
Proof.
  unfold countdown. rewrite in_map_iff. intros (k & <- & Hk).
  apply in_seq in Hk. lia.
Qed.

Lemma countdown_nonpos (radius : Z) : radius <= 0 -> countdown radius = [].
Proof.
  intros Hr. unfold countdown. now replace (Z.to_nat radius) with 0%nat by lia.
Qed.

Lemma countdown_succ (radius : Z) :
  0 <= radius -> countdown (radius + 1) = (radius + 1) :: countdown radius.
Proof.
  intros Hr. unfold countdown.
  replace (Z.to_nat (radius + 1)) with (S (Z.to_nat radius)) by lia.
  simpl. f_equal; [lia|].
  rewrite <- seq_shift, map_map. apply map_ext. intros k. lia.
Qed.

(** ** Exceptions of the numeric primitives *)

Lemma py_int_exn (x : pynum) (e : exn) :
  py_int x = Raise e -> e = OverflowError \/ e = ValueError.
Proof.
  destruct x as [z|f]; simpl; [discriminate|].
  destruct (Prim2SF f); intros [= <-]; auto.
Qed.

Lemma py_truediv_exn (a b : Z) (e : exn) :
  py_truediv a b = Raise e -> b = 0 /\ e = ZeroDivisionError.
Proof.
  unfold py_truediv. destruct (Z.eqb_spec b 0); [|discriminate].
  now intros [= <-].
Qed.

Lemma lift_Raise_inv {S A : Type} (r : result A) (s : S) (e : exn) :
  lift r s = Raise e -> r = Raise e.
Proof. unfold lift. destruct r; [discriminate|]. now intros [= ->]. Qed.

(** One round of the gradient loop raises [ZeroDivisionError] only for a
    zero radius. *)
Lemma gradient_round_exn (cx cy radius i : Z) (img : Image) :
  (ratio <- lift (py_truediv i radius) ;;
   r <- lift (py_int (colors_ 0 0 * ratio + colors_ 1 0 * (1 - ratio))%py) ;;
   g <- lift (py_int (colors_ 0 1 * ratio + colors_ 1 1 * (1 - ratio))%py) ;;
   b <- lift (py_int (colors_ 0 2 * ratio + colors_ 1 2 * (1 - ratio))%py) ;;
   ellipse (Box (cx - i) (cy - i) (cx + i) (cy + i)) (RGBA r g b 255)) img
  = Raise ZeroDivisionError -> radius = 0.
Proof.
  unfold bind at 1.
  destruct (lift (py_truediv i radius) img) as [[ratio img1]|e] eqn:Hdiv.
  - intros Hrest. exfalso. revert Hrest.
    repeat (unfold bind at 1;
            match goal with
            | |- context [lift (py_int ?x) ?s] =>
                destruct (lift (py_int x) s) as [[? ?]|e] eqn:?
            end;
            [| intros [= ->];
               match goal with
               | Hl : lift _ _ = Raise _ |- _ =>
                   apply lift_Raise_inv, py_int_exn in Hl; destruct Hl; discriminate
               end]).
    discriminate.
  - intros [= ->]. apply lift_Raise_inv, py_truediv_exn in Hdiv. tauto.
Qed.

(** C5. For a canvas of any size the gradient renderer never raises
    [ZeroDivisionError]: [i / radius] is evaluated inside the loop over
    [range(radius, 0, -1)] only, which has no round unless [radius >= 1];
    and when the radius resolves to 0 the renderer returns at once, leaving
    the canvas as it was. *)
Theorem gradient_never_divides_by_zero (img : Image) :
  draw_circle_gradient img <> Raise ZeroDivisionError /\
  (py_int (width img * 0.4%float)%py = Ok 0 ->
   draw_circle_gradient img = Ok (0, width img / 2, width img / 2, img)).
Proof.
  split.
  - unfold draw_circle_gradient. unfold bind at 1, gets.
    unfold bind at 1.
    destruct (lift (py_int (width img * 0.4%float)%py) img) as [[radius img0]|e] eqn:Hr.
    + unfold bind at 1.
      destruct (for_ _ _ img0) as [[[] img1]|e] eqn:Hloop; [discriminate|].
      intros [= ->].
      apply for_Raise_inv in Hloop as (i & s' & Hi & Hround).
      rewrite py_range_countdown in Hi. apply countdown_bounds in Hi.
      apply gradient_round_exn in Hround. lia.
    + intros [= ->]. apply lift_Raise_inv, py_int_exn in Hr. destruct Hr; discriminate.
  - intros Hr. unfold draw_circle_gradient. unfold bind at 1, gets.
    unfold bind at 1, lift at 1. rewrite Hr.
    rewrite py_range_countdown, countdown_nonpos by lia. reflexivity.
Qed.

(** C5, run on the 2-pixel canvas, whose radius is [int(0.8) = 0]. *)
Lemma gradient_never_divides_by_zero_witness :
  draw_circle_gradient (Image_new "RGBA" (2, 2) background) <> Raise ZeroDivisionError /\
  draw_circle_gradient (Image_new "RGBA" (2, 2) background)
  = Ok (0, 1, 1, Image_new "RGBA" (2, 2) background).
Proof.
  destruct (gradient_never_divides_by_zero (Image_new "RGBA" (2, 2) background)) as [H0 H1].
  split; [exact H0 | apply H1; vm_compute; reflexivity].
Defined.

(** ** The gradient loop against its specification *)

Lemma and_then_Ok_inv {A B : Type} (r : result A) (k : A -> result B) (b : B) :
  and_then r k = Ok b -> exists a, r = Ok a /\ k a = Ok b.
Proof. destruct r as [a|e]; simpl; [eauto | discriminate]. Qed.

Lemma map_result_Forall2 {A B : Type} (f : A -> result B) (xs : list A) (bs : list B) :
  map_result f xs = Ok bs -> Forall2 (fun x b => f x = Ok b) xs bs.
Proof.
  revert bs. induction xs as [|x rest IH]; intros bs; simpl.
  - intros [= <-]. constructor.
  - intros Hm. apply and_then_Ok_inv in Hm as (b & Hb & Hm).
    apply and_then_Ok_inv in Hm as (bs' & Hbs & [= <-]).
    constructor; auto.
Qed.

Lemma map_result_total {A B : Type} (f : A -> result B) (xs : list A) :
  (forall x, In x xs -> exists b, f x = Ok b) ->
  exists bs, map_result f xs = Ok bs.
Proof.
  induction xs as [|x rest IH]; intros Hall; simpl.
  - eauto.
  - destruct (Hall x) as [b ->]; [now left|].
    destruct IH as [bs ->]; [intros y Hy; apply Hall; now right|].
    simpl. eauto.
Qed.

(** One round of the source loop is one ring of the specification. *)
Lemma gradient_round_ring (cx cy radius i : Z) (img : Image) :
  (ratio <- lift (py_truediv i radius) ;;
   r <- lift (py_int (colors_ 0 0 * ratio + colors_ 1 0 * (1 - ratio))%py) ;;
   g <- lift (py_int (colors_ 0 1 * ratio + colors_ 1 1 * (1 - ratio))%py) ;;
   b <- lift (py_int (colors_ 0 2 * ratio + colors_ 1 2 * (1 - ratio))%py) ;;
   ellipse (Box (cx - i) (cy - i) (cx + i) (cy + i)) (RGBA r g b 255)) img
  = match ring radius cx cy i with
    | Ok op => Ok (tt, Image_draw img op)
    | Raise e => Raise e
    end.
Proof.
  unfold ring, ring_fill, blend.
  change (colors_ 0 0) with 46. change (colors_ 1 0) with 0.
  change (colors_ 0 1) with 227. change (colors_ 1 1) with 197.
  change (colors_ 0 2) with 255. change (colors_ 1 2) with 161.
  unfold bind at 1, lift at 1.
  destruct (py_truediv i radius) as [ratio|e]; [|reflexivity]. cbn [and_then].
  unfold bind at 1, lift at 1.
  destruct (py_int (46 * ratio + 0 * (1 - ratio))%py) as [r|e]; [|reflexivity].
  cbn [and_then]. unfold bind at 1, lift at 1.
  destruct (py_int (227 * ratio + 197 * (1 - ratio))%py) as [g|e]; [|reflexivity].
  cbn [and_then]. unfold bind at 1, lift at 1.
  destruct (py_int (255 * ratio + 161 * (1 - ratio))%py) as [b|e]; [|reflexivity].
  reflexivity.
Qed.

Lemma gradient_loop_rings (cx cy radius : Z) (xs : list Z) (img : Image) :
  for_ xs (fun i =>
    ratio <- lift (py_truediv i radius) ;;
    r <- lift (py_int (colors_ 0 0 * ratio + colors_ 1 0 * (1 - ratio))%py) ;;
    g <- lift (py_int (colors_ 0 1 * ratio + colors_ 1 1 * (1 - ratio))%py) ;;
    b <- lift (py_int (colors_ 0 2 * ratio + colors_ 1 2 * (1 - ratio))%py) ;;
    ellipse (Box (cx - i) (cy - i) (cx + i) (cy + i)) (RGBA r g b 255)) img
  = match map_result (ring radius cx cy) xs with
    | Ok ops => Ok (tt, fold_left Image_draw ops img)
    | Raise e => Raise e
    end.
Proof.
  revert img. induction xs as [|i rest IH]; intros img.
  - reflexivity.
  - cbn [for_ map_result]. unfold bind at 1. rewrite gradient_round_ring.
    destruct (ring radius cx cy i) as [op|e]; [|reflexivity].
    rewrite IH. simpl and_then.
    destruct (map_result (ring radius cx cy) rest) as [ops|e]; reflexivity.
Qed.

Lemma gradient_unfold (img : Image) (radius : Z) :
  py_int (width img * 0.4%float)%py = Ok radius ->
  draw_circle_gradient img = gradient_spec (width img) radius img.
Proof.
  intros Hr. unfold draw_circle_gradient, gradient_spec.
  unfold bind at 1, gets. unfold bind at 1, lift at 1. rewrite Hr.
  unfold bind at 1. rewrite gradient_loop_rings, py_range_countdown.
  destruct (map_result _ (countdown radius)) as [ops|e]; reflexivity.
Qed.

(** ** Bounded numeric facts, settled by evaluation *)

Lemma countdown_In (n i : Z) : 1 <= i <= n -> In i (countdown n).
Proof.
  intros Hi. unfold countdown. apply in_map_iff.
  exists (Z.to_nat (n - i)). split; [lia|]. apply in_seq. lia.
Qed.

Lemma fills_checked :
  forallb (fun radius => forallb (fill_in_range radius) (countdown radius)) (countdown 256) = true.
Proof. vm_cast_no_check (eq_refl true). Qed.

Lemma fill_in_range_holds (radius i : Z) :
  1 <= i <= radius -> radius <= 256 -> fill_in_range radius i = true.
Proof.
  intros Hi Hr. pose proof fills_checked as Hall.
  rewrite forallb_forall in Hall.
  specialize (Hall radius (countdown_In 256 radius ltac:(lia))).
  rewrite forallb_forall in Hall. apply Hall, countdown_In, Hi.
Qed.

Lemma radii_checked : forallb radius_is_floor (0 :: countdown 640) = true.
Proof. vm_compute. reflexivity. Qed.

Lemma radius_floor (size : Z) :
  0 <= size <= 640 -> py_int (size * 0.4%float)%py = Ok (2 * size / 5).
Proof.
  intros Hs. pose proof radii_checked as Hall. rewrite forallb_forall in Hall.
  assert (Hin : In size (0 :: countdown 640)).
  { destruct (Z.eq_dec size 0) as [->|]; [now left | right; apply countdown_In; lia]. }
  specialize (Hall size Hin). unfold radius_is_floor in Hall.
  destruct (py_int (size * 0.4%float)%py) as [r|e]; [|discriminate].
  apply Z.eqb_eq in Hall. now subst.
Qed.

Lemma ring_Ok_inv (radius cx cy i : Z) (op : draw_op) :
  ring radius cx cy i = Ok op ->
  exists ratio r g b,
    py_truediv i radius = Ok ratio /\
    blend (colors_ 0 0) (colors_ 1 0) ratio = Ok r /\
    blend (colors_ 0 1) (colors_ 1 1) ratio = Ok g /\
    blend (colors_ 0 2) (colors_ 1 2) ratio = Ok b /\
    op = Ellipse (Box (cx - i) (cy - i) (cx + i) (cy + i)) (RGBA r g b 255).
Proof.
  unfold ring, ring_fill. intros Hop.
  apply and_then_Ok_inv in Hop as (fill & Hfill & [= <-]).
  apply and_then_Ok_inv in Hfill as (ratio & Hratio & Hfill).
  apply and_then_Ok_inv in Hfill as (r & Hr & Hfill).
  apply and_then_Ok_inv in Hfill as (g & Hg & Hfill).
  apply and_then_Ok_inv in Hfill as (b & Hb & [= <-]).
  exists ratio, r, g, b. auto.
Qed.

Lemma fill_in_range_Ok (radius i : Z) :
  fill_in_range radius i = true -> exists fill, ring_fill radius i = Ok fill.
Proof.
  unfold fill_in_range. destruct (ring_fill radius i) as [fill|e]; [eauto | discriminate].
Qed.

Lemma rings_total (radius cx cy : Z) :
  radius <= 256 ->
  exists ops, map_result (ring radius cx cy) (countdown radius) = Ok ops.
Proof.
  intros Hr. apply map_result_total. intros i Hi.
  apply countdown_bounds in Hi.
  destruct (fill_in_range_Ok radius i (fill_in_range_holds radius i Hi Hr)) as [fill Hfill].
  unfold ring. rewrite Hfill. simpl. eauto.
Qed.

(** C2. On a canvas of side [size] whose radius [int(size * 0.4)] is at
    least 1, the gradient renderer does what the specification's loop says
    ([gradient_spec]); and for every side up to 640 this is spelled out: the
    radius is the floor of [0.4 * size], the rings are drawn for
    [i = radius, ..., 1], ring [i] is the disc with box
    [(cx - i, cy - i, cx + i, cy + i)] around [(cx, cy) = (size // 2, size // 2)],
    filled with alpha 255 and with each channel
    [trunc(colorA * ratio + colorB * (1 - ratio))] for [ratio = i / radius],
    and the renderer returns the radius and the centre. *)
Theorem gradient_refines_spec (img : Image) (size radius : Z) :
  width img = size ->
  py_int (size * 0.4%float)%py = Ok radius ->
  1 <= radius ->
  draw_circle_gradient img = gradient_spec size radius img /\
  (0 <= size <= 640 ->
   radius = 2 * size / 5 /\
   exists ops,
     Forall2 (fun i op =>
                exists ratio r g b,
                  py_truediv i radius = Ok ratio /\
                  blend (colors_ 0 0) (colors_ 1 0) ratio = Ok r /\
                  blend (colors_ 0 1) (colors_ 1 1) ratio = Ok g /\
                  blend (colors_ 0 2) (colors_ 1 2) ratio = Ok b /\
                  op = Ellipse (Box (size / 2 - i) (size / 2 - i) (size / 2 + i) (size / 2 + i))
                               (RGBA r g b 255))
             (countdown radius) ops /\
     draw_circle_gradient img
     = Ok (radius, size / 2, size / 2, fold_left Image_draw ops img)).
Proof.
  intros Hw Hr Hpos. subst size.
  pose proof (gradient_unfold img radius Hr) as Hspec.
  split; [exact Hspec|].
  intros Hsize. pose proof (radius_floor _ Hsize) as Hfloor.
  rewrite Hr in Hfloor. injection Hfloor as Hfloor.
  split; [exact Hfloor|].
  destruct (rings_total radius (width img / 2) (width img / 2)) as [ops Hops].
  { rewrite Hfloor. apply Z.div_le_upper_bound; lia. }
  exists ops. split.
  - apply map_result_Forall2 in Hops.
    eapply Forall2_impl; [exact Hops|].
    intros i op Hop. now apply ring_Ok_inv.
  - rewrite Hspec. unfold gradient_spec. now rewrite Hops.
Qed.

(** C2 on the 16-pixel canvas: radius 6, centre (8, 8), six rings. *)
Lemma gradient_refines_spec_witness :
  draw_circle_gradient (Image_new "RGBA" (16, 16) background)
  = gradient_spec 16 6 (Image_new "RGBA" (16, 16) background) /\
  (0 <= 16 <= 640 ->
   6 = 2 * 16 / 5 /\
   exists ops,
     Forall2 (fun i op =>
                exists ratio r g b,
                  py_truediv i 6 = Ok ratio /\
                  blend (colors_ 0 0) (colors_ 1 0) ratio = Ok r /\
                  blend (colors_ 0 1) (colors_ 1 1) ratio = Ok g /\
                  blend (colors_ 0 2) (colors_ 1 2) ratio = Ok b /\
                  op = Ellipse (Box (16 / 2 - i) (16 / 2 - i) (16 / 2 + i) (16 / 2 + i))
                               (RGBA r g b 255))
             (countdown 6) ops /\
     draw_circle_gradient (Image_new "RGBA" (16, 16) background)
     = Ok (6, 16 / 2, 16 / 2, fold_left Image_draw ops (Image_new "RGBA" (16, 16) background))).
Proof.
  apply (gradient_refines_spec (Image_new "RGBA" (16, 16) background) 16 6).
  - reflexivity.
  - vm_compute. reflexivity.
  - lia.
Defined.

(** C9. On each of the three canvases the script produces (sides 16, 32,
    180) the radius computed by the gradient renderer is the floor of
    [0.4 * size] and at least 1, and the two arcs of the accent renderer are
    stroked with the widths [max(1, size // 16)] and [max(2, size // 12)],
    both at least 1. *)
Theorem geometry_invariants :
  Forall (fun size : Z =>
    exists radius cx cy img img',
      draw_circle_gradient (Image_new "RGBA" (size, size) background)
      = Ok (radius, cx, cy, img) /\
      radius = 2 * size / 5 /\ 1 <= radius /\
      draw_accent radius cx cy size img = Ok (tt, img') /\
      omap stroke_width (calls img') = [Z.max 1 (size / 16); Z.max 2 (size / 12)] /\
      Forall (fun w => 1 <= w) (omap stroke_width (calls img')))
    (map fst exports).
Proof.
  repeat constructor;
    (eexists _, _, _, _, _;
     split; [vm_compute; reflexivity|];
     split; [reflexivity|];
     split; [lia|];
     split; [vm_compute; reflexivity|];
     split; [vm_compute; reflexivity|];
     vm_compute; repeat constructor; discriminate).
Qed.

(** ** The colours the gradient paints *)

Lemma map_result_Forall2_In {A B : Type} (f : A -> result B) (xs : list A) (bs : list B) :
  map_result f xs = Ok bs -> Forall2 (fun x b => In x xs /\ f x = Ok b) xs bs.
Proof.
  intros Hm. apply map_result_Forall2 in Hm.
  induction Hm as [|x b rest bs' Hx Hrest IH]; constructor.
  - split; [now left | exact Hx].
  - eapply Forall2_impl; [exact IH|]. intros y c [Hy Hc]. split; [now right | exact Hc].
Qed.

Lemma fill_in_range_inv (radius i : Z) :
  fill_in_range radius i = true ->
  exists r g b,
    ring_fill radius i = Ok (RGBA r g b 255) /\
    Z.min (colors_ 0 0) (colors_ 1 0) <= r <= Z.max (colors_ 0 0) (colors_ 1 0) /\
    Z.min (colors_ 0 1) (colors_ 1 1) <= g <= Z.max (colors_ 0 1) (colors_ 1 1) /\
    Z.min (colors_ 0 2) (colors_ 1 2) <= b <= Z.max (colors_ 0 2) (colors_ 1 2) /\
    (i = radius -> (r, g, b) = (colors_ 0 0, colors_ 0 1, colors_ 0 2)).
Proof.
  unfold fill_in_range, between.
  destruct (ring_fill radius i) as [[r g b|r g b a]|e]; try discriminate.
  intros Hc. repeat (apply andb_prop in Hc as [Hc ?]).
  assert (a = 255) as -> by lia.
  exists r, g, b. repeat split; try lia.
  intros ->. rewrite Z.eqb_refl in *.
  repeat match goal with
         | Hb : (_ && _)%bool = true |- _ => apply andb_prop in Hb as [? ?]
         end.
  repeat f_equal; lia.
Qed.



(** On a canvas of side at most 640 (radius at most 256) every ring
    [i = radius, ..., 1] is filled with an opaque colour whose channels lie
    between the two brand colours' channels, and the rim ring [i = radius]
    with exactly [colors[0]]. *)
Lemma fills_between (img : Image) (size : Z) :
  width img = size ->
  0 <= size <= 640 ->
  exists ops,
    draw_circle_gradient img
    = Ok (2 * size / 5, size / 2, size / 2, fold_left Image_draw ops img) /\
    Forall2 (fun (i : Z) (op : draw_op) =>
               exists r g b : Z,
                 In i (countdown (2 * size / 5)) /\
                 ring_fill (2 * size / 5) i = Ok (RGBA r g b 255) /\
                 op = Ellipse (Box (size / 2 - i) (size / 2 - i) (size / 2 + i) (size / 2 + i))
                              (RGBA r g b 255) /\
                 Z.min (colors_ 0 0) (colors_ 1 0) <= r <= Z.max (colors_ 0 0) (colors_ 1 0) /\
                 Z.min (colors_ 0 1) (colors_ 1 1) <= g <= Z.max (colors_ 0 1) (colors_ 1 1) /\
                 Z.min (colors_ 0 2) (colors_ 1 2) <= b <= Z.max (colors_ 0 2) (colors_ 1 2) /\
                 (i = 2 * size / 5 -> (r, g, b) = (46, 227, 255)))
            (countdown (2 * size / 5)) ops.
Proof.
  intros Hw Hsize. subst size.
  set (size := width img) in *. set (radius := 2 * size / 5).
  assert (Hrad : radius <= 256) by (apply Z.div_le_upper_bound; lia).
  pose proof (gradient_unfold img radius (radius_floor size Hsize)) as Hspec.
  destruct (rings_total radius (size / 2) (size / 2) Hrad) as [ops Hops].
  exists ops. split.
  - rewrite Hspec. unfold gradient_spec. fold size. now rewrite Hops.
  - apply map_result_Forall2_In in Hops.
    eapply Forall2_impl; [exact Hops|].
    intros i op [Hi Hop]. pose proof (countdown_bounds _ _ Hi) as Hbounds.
    destruct (fill_in_range_inv radius i (fill_in_range_holds radius i Hbounds Hrad))
      as (r & g & b & Hfill & Hr & Hg & Hb & Hrim).
    unfold ring in Hop. rewrite Hfill in Hop. injection Hop as <-.
    exists r, g, b. split; [exact Hi|]. split; [exact Hfill|]. split; [reflexivity|].
    split; [exact Hr|]. split; [exact Hg|]. split; [exact Hb|]. exact Hrim.
Qed.


(** Far beyond any canvas the script draws the same arithmetic leaves the
    range: with a radius near [2^52] the green channel of ring 1 is 196,
    below both brand colours' 197 and 227. *)
Remark fill_below_range_at_huge_radius :
  ring_fill 5750194761229931 1 = Ok (RGBA 0 196 161 255).
Proof. vm_compute. reflexivity. Qed.

(** ** Centre and rim of the gradient disc *)

(** The rings of the gradient on a canvas of side at most 640, with their
    fills. *)
Lemma gradient_rings (img : Image) (size : Z) :
  width img = size ->
  0 <= size <= 640 ->
  exists ops,
    draw_circle_gradient img
    = Ok (2 * size / 5, size / 2, size / 2, fold_left Image_draw ops img) /\
    Forall2 (fun (i : Z) (op : draw_op) =>
               exists fill,
                 ring_fill (2 * size / 5) i = Ok fill /\
                 op = Ellipse (Box (size / 2 - i) (size / 2 - i) (size / 2 + i) (size / 2 + i))
                              fill)
            (countdown (2 * size / 5)) ops.
Proof.
  intros Hw Hsize. subst size.
  assert (Hrad : 2 * width img / 5 <= 256) by (apply Z.div_le_upper_bound; lia).
  pose proof (gradient_unfold img _ (radius_floor _ Hsize)) as Hspec.
  destruct (rings_total _ (width img / 2) (width img / 2) Hrad) as [ops Hops].
  exists ops. split.
  - rewrite Hspec. unfold gradient_spec. now rewrite Hops.
  - apply map_result_Forall2 in Hops. eapply Forall2_impl; [exact Hops|].
    intros i op Hop. unfold ring in Hop.
    apply and_then_Ok_inv in Hop as (fill & Hfill & [= <-]). eauto.
Qed.

Lemma countdown_last (radius : Z) :
  1 <= radius -> countdown radius = map (fun i => i + 1) (countdown (radius - 1)) ++ [1].
Proof.
  intros Hr. unfold countdown.
  replace (Z.to_nat radius) with (Z.to_nat (radius - 1) + 1)%nat by lia.
  rewrite seq_app, map_app, map_map. simpl. f_equal.
  - apply map_ext. intros k. lia.
  - f_equal. lia.
Qed.

Lemma countdown_cons (radius : Z) :
  1 <= radius -> countdown radius = radius :: countdown (radius - 1).
Proof.
  intros Hr. pose proof (countdown_succ (radius - 1) ltac:(lia)) as Hs.
  now replace (radius - 1 + 1) with radius in Hs by lia.
Qed.

Section RasterFacts.
Variable covers : Z -> Z -> Z -> Z -> Z -> Z -> bool.
Hypothesis contract : ellipse_contract covers.

(** Boxes drawn around [(cx, cy)], one per index. *)
Definition rings_around (cx cy : Z) (idx : list Z) (ops : list draw_op) : Prop :=
  Forall2 (fun (i : Z) (op : draw_op) =>
             exists fill, op = Ellipse (Box (cx - i) (cy - i) (cx + i) (cy + i)) fill)
          idx ops.

Lemma getpixel_rings_defined (cx cy : Z) (idx : list Z) (ops : list draw_op) :
  rings_around cx cy idx ops ->
  forall img x y v, getpixel covers img x y = Some v ->
  exists v', getpixel covers (fold_left Image_draw ops img) x y = Some v'.
Proof.
  induction 1 as [|i op idx' ops' (fill & ->) _ IH]; intros img x y v Hv; simpl.
  - eauto.
  - eapply IH. simpl. rewrite Hv. reflexivity.
Qed.

(** Rings whose box does not contain the pixel leave it as it was. *)
Lemma getpixel_rings_outside (cx cy : Z) (idx : list Z) (ops : list draw_op) (x y : Z) :
  rings_around cx cy idx ops ->
  Forall (fun i => ~ (cx - i <= x <= cx + i /\ cy - i <= y <= cy + i)) idx ->
  forall img, getpixel covers (fold_left Image_draw ops img) x y = getpixel covers img x y.
Proof.
  destruct contract as (Hbox & _ & _).
  induction 1 as [|i op idx' ops' (fill & ->) _ IH]; intros Hout img; simpl.
  - reflexivity.
  - inversion Hout as [|? ? Hi Hrest]; subst. rewrite (IH Hrest). simpl.
    destruct (getpixel covers img x y) as [old|]; [|reflexivity].
    destruct (covers (cx - i) (cy - i) (cx + i) (cy + i) x y) eqn:Hc; [|reflexivity].
    apply Hbox in Hc. contradiction.
Qed.

(** After the gradient (side between 3 and 640) the centre pixel holds the
    fill of the innermost ring, and the four pixels at distance [radius]
    from the centre hold the fill of the outermost one. *)
Lemma gradient_pixels (size : Z) :
  3 <= size <= 640 ->
  exists img inner outer,
    draw_circle_gradient (Image_new "RGBA" (size, size) background)
    = Ok (2 * size / 5, size / 2, size / 2, img) /\
    ring_fill (2 * size / 5) 1 = Ok inner /\
    ring_fill (2 * size / 5) (2 * size / 5) = Ok outer /\
    getpixel covers img (size / 2) (size / 2) = Some (rgba inner) /\
    getpixel covers img (size / 2 + 2 * size / 5) (size / 2) = Some (rgba outer) /\
    getpixel covers img (size / 2 - 2 * size / 5) (size / 2) = Some (rgba outer) /\
    getpixel covers img (size / 2) (size / 2 + 2 * size / 5) = Some (rgba outer) /\
    getpixel covers img (size / 2) (size / 2 - 2 * size / 5) = Some (rgba outer).
Proof.
  intros Hsize.
  destruct (gradient_rings (Image_new "RGBA" (size, size) background) size)
    as (ops & Hrun & Hrings); [reflexivity | lia |].
  set (radius := 2 * size / 5) in *. set (cx := size / 2) in *.
  set (base := Image_new "RGBA" (size, size) background) in *.
  assert (Hradius : 1 <= radius /\ 0 <= cx - radius /\ cx + radius < size).
  { subst radius cx. Z.div_mod_to_equations. lia. }
  assert (Hbase : forall px py, 0 <= px < size -> 0 <= py < size ->
                              getpixel covers base px py = Some (rgba background)).
  { intros px py Hx Hy. simpl.
    destruct (Z.leb_spec 0 px), (Z.ltb_spec px size), (Z.leb_spec 0 py), (Z.ltb_spec py size);
      simpl; solve [reflexivity | lia]. }
  clearbody base.
  destruct contract as (Hbox & Hcentre & Hsides).
  assert (Hlast : exists ops0 inner,
             ops = ops0 ++ [Ellipse (Box (cx - 1) (cx - 1) (cx + 1) (cx + 1)) inner] /\
             ring_fill radius 1 = Ok inner /\
             rings_around cx cx (map (fun i => i + 1) (countdown (radius - 1))) ops0).
  { pose proof Hrings as H0. rewrite (countdown_last radius) in H0 by lia.
    apply Forall2_app_inv_l in H0 as (ops0 & ops1 & Hinit & Hone & Hsplit).
    inversion Hone as [|? op1 ? ops1' (inner & Hinner & Hop1) Hnil]; subst.
    inversion Hnil; subst.
    exists ops0, inner. repeat split; [assumption|].
    eapply Forall2_impl; [exact Hinit|]. intros i op (fill & _ & ->). eauto. }
  assert (Hfirst : exists rest outer,
             ops = Ellipse (Box (cx - radius) (cx - radius) (cx + radius) (cx + radius)) outer
                   :: rest /\
             ring_fill radius radius = Ok outer /\
             rings_around cx cx (countdown (radius - 1)) rest).
  { pose proof Hrings as H0. rewrite (countdown_cons radius) in H0 by lia.
    inversion H0 as [|? op0 ? rest (outer & Houter & Hop0) Hrest]; subst.
    exists rest, outer. repeat split; [assumption|].
    eapply Forall2_impl; [exact Hrest|]. intros i op (fill & _ & ->). eauto. }
  destruct Hlast as (ops0 & inner & Hops_last & Hinner & Hinit).
  destruct Hfirst as (rest & outer & Hops_first & Houter & Hrest).
  assert (Hrim : forall px py, 0 <= px < size -> 0 <= py < size ->
             covers (cx - radius) (cx - radius) (cx + radius) (cx + radius) px py = true ->
             (px = cx + radius \/ px = cx - radius \/ py = cx + radius \/ py = cx - radius) ->
             getpixel covers (fold_left Image_draw ops base) px py = Some (rgba outer)).
  { intros px py Hx Hy Hcov Hedge. rewrite Hops_first. simpl fold_left.
    rewrite (getpixel_rings_outside cx cx (countdown (radius - 1)) rest px py Hrest).
    - simpl. rewrite (Hbase px py Hx Hy), Hcov. reflexivity.
    - apply List.Forall_forall. intros i Hi. apply countdown_bounds in Hi. lia. }
  exists (fold_left Image_draw ops base), inner, outer.
  split; [exact Hrun|]. split; [exact Hinner|]. split; [exact Houter|].
  destruct (Hsides cx cx radius) as (He & Hw & Hs & Hn); [lia|].
  split; [|repeat split; apply Hrim; auto; lia].
  rewrite Hops_last, fold_left_app. simpl.
  destruct (getpixel_rings_defined cx cx _ ops0 Hinit base cx cx _
              (Hbase cx cx ltac:(lia) ltac:(lia))) as [v' ->].
  rewrite (Hcentre cx cx 1) by lia. reflexivity.
Qed.

End RasterFacts.

Lemma disc_covers_contract : ellipse_contract disc_covers.
Proof.
  unfold ellipse_contract, disc_covers. repeat split.
  1-4: repeat match goal with
         | Hc : (_ && _)%bool = true |- _ => apply andb_prop in Hc as [Hc ?]
         end; lia.
  all: intros; repeat (apply andb_true_intro; split); try (apply Z.leb_le; lia).
  all: apply Z.leb_le; nia.
Qed.

(** On a circle with [axis_only] radius every lattice point is one of the
    four axis points. *)
Lemma on_axis (radius cx cy x y : Z) :
  axis_only radius = true ->
  0 <= radius ->
  (x - cx) ^ 2 + (y - cy) ^ 2 = radius ^ 2 ->
  (x = cx + radius /\ y = cy) \/ (x = cx - radius /\ y = cy) \/
  (x = cx /\ y = cy + radius) \/ (x = cx /\ y = cy - radius).
Proof.
  intros Haxis Hr Hcircle. unfold axis_only in Haxis.
  set (a := Z.abs (x - cx)). set (b := Z.abs (y - cy)).
  assert (Hab : a * a + b * b = radius * radius) by (subst a b; nia).
  assert (Ha : In a (0 :: countdown radius)).
  { destruct (Z.eq_dec a 0) as [->|]; [now left | right; apply countdown_In; subst a b; nia]. }
  assert (Hb : In b (0 :: countdown radius)).
  { destruct (Z.eq_dec b 0) as [->|]; [now left | right; apply countdown_In; subst a b; nia]. }
  rewrite forallb_forall in Haxis. specialize (Haxis a Ha).
  rewrite forallb_forall in Haxis. specialize (Haxis b Hb).
  apply Z.eqb_eq in Hab. rewrite Hab in Haxis. simpl in Haxis.
  apply orb_prop in Haxis as [H0|H0]; apply Z.eqb_eq in H0; apply Z.eqb_eq in Hab;
    subst a b; nia.
Qed.

Lemma generated_radii_axis_only : forallb (fun size => axis_only (2 * size / 5)) (map fst exports) = true.
Proof. vm_compute. reflexivity. Qed.

(** The centre-and-rim property on a generated canvas, with the fill of the
    innermost ring at the centre. *)
Lemma generated_centre_and_rim (covers : Z -> Z -> Z -> Z -> Z -> Z -> bool)
    (size r g b : Z) :
  ellipse_contract covers ->
  In size (map fst exports) ->
  ring_fill (2 * size / 5) 1 = Ok (RGBA r g b 255) ->
  ring_fill (2 * size / 5) (2 * size / 5) = Ok (RGBA 46 227 255 255) ->
  centre_and_rim covers size (r, g, b, 255).
Proof.
  intros Hcontract Hgen Hinner Houter.
  assert (Hsize : 3 <= size <= 640).
  { simpl in Hgen. intuition lia. }
  destruct (gradient_pixels covers Hcontract size Hsize)
    as (img & inner & outer & Hrun & Hin & Hout & Hc & He & Hw & Hs & Hn).
  rewrite Hinner in Hin. injection Hin as <-.
  rewrite Houter in Hout. injection Hout as <-.
  exists (2 * size / 5), (size / 2), (size / 2), img.
  split; [exact Hrun|]. split; [exact Hc|].
  intros x y Hcircle.
  pose proof generated_radii_axis_only as Haxis. rewrite forallb_forall in Haxis.
  specialize (Haxis size Hgen).
  assert (Hpos : 0 <= 2 * size / 5) by (apply Z.div_pos; lia).
  destruct (on_axis _ _ _ x y Haxis Hpos Hcircle)
    as [[-> ->]|[[-> ->]|[[-> ->]|[-> ->]]]]; assumption.
Qed.

(** C1, as the code has it. For any rasteriser whose filled ellipse stays
    inside its box, covers the centre of the box and reaches the middle of
    each side: after the gradient is drawn on the canvases of side 16, 32
    and 180, the centre pixel holds the fill of the innermost ring, which is
    (7, 202, 176), (3, 199, 168) and (0, 197, 162) respectively (the blend
    closest to the second brand colour), and every pixel at distance exactly
    [radius] from the centre holds the first brand colour (46, 227, 255). *)
Theorem centre_second_rim_first (covers : Z -> Z -> Z -> Z -> Z -> Z -> bool) :
  ellipse_contract covers ->
  centre_and_rim covers 16 (7, 202, 176, 255) /\
  centre_and_rim covers 32 (3, 199, 168, 255) /\
  centre_and_rim covers 180 (0, 197, 162, 255).
Proof.
  intros Hcontract.
  repeat split; apply generated_centre_and_rim;
    solve [assumption | simpl; tauto | vm_compute; reflexivity].
Qed.

(** C1 with the geometric rasteriser. *)
Lemma centre_second_rim_first_witness :
  centre_and_rim disc_covers 16 (7, 202, 176, 255) /\
  centre_and_rim disc_covers 32 (3, 199, 168, 255) /\
  centre_and_rim disc_covers 180 (0, 197, 162, 255).
Proof.
  apply (centre_second_rim_first disc_covers). exact disc_covers_contract.
Defined.

(** C1 as stated fails on the 16-pixel canvas: with the geometric
    rasteriser the centre pixel (8, 8) is (7, 202, 176), more than 1 away
    from the first brand colour on every channel, and the rim pixel (14, 8)
    is the first brand colour, not the second; and no rasteriser meeting
    [ellipse_contract] gives the stated colours. *)
Lemma centre_first_rim_second_fails :
  (exists img,
     draw_circle_gradient (Image_new "RGBA" (16, 16) background) = Ok (6, 8, 8, img) /\
     getpixel disc_covers img 8 8 = Some (7, 202, 176, 255) /\
     getpixel disc_covers img 14 8 = Some (46, 227, 255, 255)) /\
  ~ (exists covers, ellipse_contract covers /\ centre_first_rim_second covers 16).
Proof.
  split.
  - eexists. split; [vm_compute; reflexivity|]. split; vm_compute; reflexivity.
  - intros (covers & Hcontract & radius & cx & cy & img & Hrun & _ & Hrim).
    destruct (gradient_pixels covers Hcontract 16 ltac:(lia))
      as (img' & inner & outer & Hrun' & _ & Hout & _ & He & _).
    rewrite Hrun' in Hrun. injection Hrun as <- <- <- <-.
    assert (Houter : outer = RGBA 46 227 255 255).
    { assert (Hv : ring_fill (2 * 16 / 5) (2 * 16 / 5) = Ok (RGBA 46 227 255 255))
        by (vm_compute; reflexivity).
      rewrite Hv in Hout. now injection Hout. }
    subst outer.
    rewrite (Hrim (16 / 2 + 2 * 16 / 5) (16 / 2)) in He by (vm_compute; reflexivity).
    discriminate He.
Qed.

(** ** The file system *)

Lemma node_at_cons (m : gmap path node) (x : string) (p : path) :
  node_at m (x :: p) = m !! (x :: p).
Proof. reflexivity. Qed.

Lemma node_at_None (m : gmap path node) (p : path) :
  node_at m p = None -> p <> [] /\ m !! p = None.
Proof. destruct p; [discriminate | intros Hn; split; [discriminate | exact Hn]]. Qed.

Lemma node_at_joinpath (m : gmap path node) (p : path) (name : string) :
  node_at m (joinpath p name) = m !! joinpath p name.
Proof. unfold joinpath. destruct p; reflexivity. Qed.

Lemma parent_joinpath (p : path) (name : string) : parent (joinpath p name) = p.
Proof. unfold parent, joinpath. apply removelast_last. Qed.

Lemma write_file_Ok_inv (p : path) (data : bytes) (w w' : World) (u : unit) :
  write_file p data w = Ok (u, w') ->
  node_at (fs w) (parent p) = Some Dir /\
  node_at (fs w) p <> Some Dir /\
  w' = mkWorld (<[p := File data]> (fs w)) (events w ++ [EvWrite p data]).
Proof.
  unfold write_file.
  destruct (node_at (fs w) (parent p)) as [[|d]|]; try discriminate.
  destruct (node_at (fs w) p) as [[|d]|]; try discriminate;
    intros [= <- <-]; repeat split; solve [reflexivity | discriminate].
Qed.

Lemma read_file_Ok_inv (p : path) (w w' : World) (data : bytes) :
  read_file p w = Ok (data, w') ->
  node_at (fs w) p = Some (File data) /\
  w' = mkWorld (fs w) (events w ++ [EvRead p]).
Proof.
  unfold read_file. destruct (node_at (fs w) p) as [[|d]|]; try discriminate.
  intros [= <- <-]. split; reflexivity.
Qed.

Lemma dirs_added_refl (p : path) (m : gmap path node) : dirs_added p m m.
Proof. intros q. now left. Qed.

Lemma dirs_added_trans (p1 p2 : path) (m1 m2 m3 : gmap path node) :
  p1 `prefix_of` p2 -> dirs_added p1 m1 m2 -> dirs_added p2 m2 m3 -> dirs_added p2 m1 m3.
Proof.
  intros Hp H12 H23 q. destruct (H12 q) as [E12|(P1 & N1 & D2)], (H23 q) as [E23|(P2 & N2 & D3)].
  - left. congruence.
  - right. repeat split; [assumption | congruence | assumption].
  - right. repeat split; [now transitivity p1 | assumption | congruence].
  - congruence.
Qed.

Lemma os_mkdir_Ok_inv (p : path) (m m' : gmap path node) :
  os_mkdir p m = Ok m' ->
  p <> [] /\ m !! p = None /\ node_at m (parent p) = Some Dir /\ m' = <[p := Dir]> m.
Proof.
  unfold os_mkdir. destruct (node_at m p) as [n|] eqn:Hp; [discriminate|].
  apply node_at_None in Hp as [Hne Hnone].
  destruct (node_at m (parent p)) as [[|d]|]; try discriminate.
  intros [= <-]. auto.
Qed.

Lemma is_dir_lookup (m : gmap path node) (p : path) :
  m !! p = Some Dir -> is_dir m p = true.
Proof. unfold is_dir, node_at. destruct p; [reflexivity|]. now intros ->. Qed.

Lemma mkdir_flat_Ok_inv (p : path) (exist_ok : bool) (m m' : gmap path node) :
  mkdir_flat p exist_ok m = Ok m' ->
  (p <> [] /\ m !! p = None /\ node_at m (parent p) = Some Dir /\ m' = <[p := Dir]> m) \/
  (is_dir m p = true /\ m' = m).
Proof.
  unfold mkdir_flat. destruct (os_mkdir p m) as [m1|e] eqn:Hos.
  - intros [= <-]. left. now apply os_mkdir_Ok_inv.
  - destruct e; try discriminate;
      (destruct exist_ok; simpl; [|discriminate]);
      (destruct (is_dir m p) eqn:Hd; [|discriminate]);
      intros [= <-]; right; auto.
Qed.

Lemma mkdir_flat_creates (p : path) (exist_ok : bool) (m m' : gmap path node) :
  mkdir_flat p exist_ok m = Ok m' -> is_dir m' p = true /\ dirs_added p m m'.
Proof.
  intros Hflat. apply mkdir_flat_Ok_inv in Hflat as [(Hne & Hnone & _ & ->)|[Hd ->]].
  - split.
    + apply is_dir_lookup, lookup_insert_eq.
    + intros q. destruct (decide (p = q)) as [<-|Hpq].
      * right. repeat split; [reflexivity | exact Hnone | apply lookup_insert_eq].
      * left. now apply lookup_insert_ne.
  - split; [exact Hd | apply dirs_added_refl].
Qed.

(** A successful [mkdir] leaves the path a directory, and changes nothing
    but missing prefixes of the path, which become directories. *)
Lemma mkdir_rev_creates (rp : list string) (parents exist_ok : bool) (m m' : gmap path node) :
  mkdir_rev rp parents exist_ok m = Ok m' ->
  is_dir m' (rev rp) = true /\ dirs_added (rev rp) m m'.
Proof.
  revert parents exist_ok m m'. induction rp as [|x rparent IH]; intros parents exist_ok m m'.
  - simpl mkdir_rev. destruct (mkdir_flat [] exist_ok m) as [m1|e] eqn:Hflat.
    + intros [= <-]. now apply mkdir_flat_creates in Hflat.
    + destruct e; discriminate.
  - cbn [mkdir_rev]. destruct (mkdir_flat (rev (x :: rparent)) exist_ok m) as [m1|e] eqn:Hflat.
    + intros [= <-]. now apply mkdir_flat_creates in Hflat.
    + destruct e; try discriminate.
      destruct parents; [|discriminate].
      destruct (mkdir_rev rparent true true m) as [m1|e] eqn:Hparent; [|discriminate].
      intros Hagain. apply mkdir_flat_creates in Hagain as [Hd Hadd].
      split; [exact Hd|].
      eapply dirs_added_trans; [|apply (IH _ _ _ _ Hparent) | exact Hadd].
      simpl. now exists [x].
Qed.

(** Every directory on the way exists or can be created: [mkdir] with
    [parents=True, exist_ok=True] succeeds unless a prefix of the path is a
    file. *)
Lemma mkdir_rev_total (rp : list string) (m : gmap path node) :
  (forall q, q `prefix_of` rev rp -> is_file m q = false) ->
  exists m', mkdir_rev rp true true m = Ok m'.
Proof.
  revert m. induction rp as [|x rparent IH]; intros m Hclear.
  - exists m. reflexivity.
  - cbn [mkdir_rev]. simpl rev. fold (joinpath (rev rparent) x).
    set (p := joinpath (rev rparent) x) in *.
    assert (Hp : is_file m p = false) by (apply Hclear; reflexivity).
    assert (Hparent : is_file m (rev rparent) = false).
    { apply Hclear. now exists [x]. }
    unfold mkdir_flat at 1, os_mkdir. unfold is_file in Hp, Hparent. unfold is_dir.
    subst p. rewrite parent_joinpath.
    destruct (node_at m (joinpath (rev rparent) x)) as [[|d]|] eqn:Hnode;
      [eexists; reflexivity | discriminate |].
    destruct (node_at m (rev rparent)) as [[|d]|] eqn:Hpnode;
      [eexists; reflexivity | discriminate |].
    destruct (IH m) as [m1 Hm1].
    { intros q Hq. apply Hclear. etransitivity; [exact Hq | now exists [x]]. }
    rewrite Hm1. apply mkdir_rev_creates in Hm1 as [Hd1 Hadd1].
    unfold mkdir_flat, os_mkdir. rewrite parent_joinpath.
    unfold is_dir in Hd1 |- *.
    destruct (node_at m1 (rev rparent)) as [[|d]|]; try discriminate.
    rewrite node_at_joinpath in Hnode |- *.
    destruct (Hadd1 (joinpath (rev rparent) x)) as [->|(_ & _ & ->)].
    + rewrite Hnode. eexists; reflexivity.
    + eexists; reflexivity.
Qed.

Lemma Path_mkdir_Ok_inv (p : path) (parents exist_ok : bool) (w w' : World) (u : unit) :
  Path_mkdir p parents exist_ok w = Ok (u, w') ->
  exists m, mkdir_rev (rev p) parents exist_ok (fs w) = Ok m /\
            w' = mkWorld m (events w ++ [EvMkdir p]).
Proof.
  unfold Path_mkdir. destruct (mkdir_rev _ _ _ _) as [m|e]; [|discriminate].
  intros [= <- <-]. eauto.
Qed.

Lemma node_at_insert_ne (m : gmap path node) (p q : path) (n : node) :
  p <> q -> node_at (<[p := n]> m) q = node_at m q.
Proof. intros Hpq. destruct q; [reflexivity|]. simpl. now apply lookup_insert_ne. Qed.

Lemma is_dir_insert_ne (m : gmap path node) (p q : path) (n : node) :
  p <> q -> is_dir (<[p := n]> m) q = is_dir m q.
Proof. intros Hpq. unfold is_dir. now rewrite node_at_insert_ne. Qed.

Lemma is_file_insert_ne (m : gmap path node) (p q : path) (n : node) :
  p <> q -> is_file (<[p := n]> m) q = is_file m q.
Proof. intros Hpq. unfold is_file. now rewrite node_at_insert_ne. Qed.

Lemma is_file_insert_file (m : gmap path node) (p : path) (data : bytes) :
  p <> [] -> is_file (<[p := File data]> m) p = true.
Proof.
  intros Hp. unfold is_file. destruct p; [contradiction|].
  simpl. now rewrite lookup_insert_eq.
Qed.

Lemma write_file_Ok (p : path) (data : bytes) (w : World) :
  node_at (fs w) (parent p) = Some Dir ->
  is_dir (fs w) p = false ->
  write_file p data w
  = Ok (tt, mkWorld (<[p := File data]> (fs w)) (events w ++ [EvWrite p data])).
Proof.
  unfold write_file, is_dir. intros -> Hp.
  destruct (node_at (fs w) p) as [[|d]|]; [discriminate | reflexivity | reflexivity].
Qed.

Lemma joinpath_not_prefix (p : path) (name : string) : ~ joinpath p name `prefix_of` p.
Proof.
  intros Hpre. apply prefix_length in Hpre. unfold joinpath in Hpre.
  rewrite length_app in Hpre. simpl in Hpre. lia.
Qed.

Lemma joinpath_ne (p : path) (name : string) : joinpath p name <> p.
Proof. intros Heq. apply (joinpath_not_prefix p name). now rewrite Heq. Qed.

(** Creating [p] touches nothing directly under [p]. *)
Lemma dirs_added_below (p : path) (m m' : gmap path node) (name : string) :
  dirs_added p m m' -> m' !! joinpath p name = m !! joinpath p name.
Proof.
  intros Hadd. destruct (Hadd (joinpath p name)) as [Heq|(Hpre & _)]; [exact Heq|].
  now apply joinpath_not_prefix in Hpre.
Qed.

(** Creating directories changes no file. *)
Lemma dirs_added_is_file (p : path) (m m' : gmap path node) (q : path) :
  dirs_added p m m' -> is_file m' q = is_file m q.
Proof.
  intros Hadd. unfold is_file. destruct q as [|x q]; [reflexivity|]. simpl.
  destruct (Hadd (x :: q)) as [->|(_ & -> & ->)]; reflexivity.
Qed.

Lemma parent_shorter (p : path) : p <> [] -> parent p <> p.
Proof.
  intros Hp Heq. destruct (exists_last Hp) as (q & x & ->).
  unfold parent in Heq. rewrite removelast_last in Heq.
  apply (joinpath_ne q x). unfold joinpath. now symmetry.
Qed.

Lemma fs_wf_insert_dir (m : gmap path node) (p : path) :
  fs_wf m -> p <> [] -> m !! p = None -> node_at m (parent p) = Some Dir ->
  fs_wf (<[p := Dir]> m).
Proof.
  intros Hwf Hne Hnone Hparent q n Hq.
  assert (Hmono : forall r, is_dir m r = true -> is_dir (<[p := Dir]> m) r = true).
  { intros r Hr. destruct (decide (p = r)) as [<-|Hpr].
    - apply is_dir_lookup, lookup_insert_eq.
    - now rewrite is_dir_insert_ne. }
  apply Hmono. destruct (decide (p = q)) as [<-|Hpq].
  - unfold is_dir. now rewrite Hparent.
  - rewrite lookup_insert_ne in Hq by exact Hpq. exact (Hwf q n Hq).
Qed.

Lemma mkdir_flat_wf (p : path) (exist_ok : bool) (m m' : gmap path node) :
  fs_wf m -> mkdir_flat p exist_ok m = Ok m' -> fs_wf m'.
Proof.
  intros Hwf Hflat.
  apply mkdir_flat_Ok_inv in Hflat as [(Hne & Hnone & Hparent & ->)|[_ ->]];
    [now apply fs_wf_insert_dir | exact Hwf].
Qed.

Lemma mkdir_rev_wf (rp : list string) (parents exist_ok : bool) (m m' : gmap path node) :
  fs_wf m -> mkdir_rev rp parents exist_ok m = Ok m' -> fs_wf m'.
Proof.
  revert parents exist_ok m m'. induction rp as [|x rparent IH];
    intros parents exist_ok m m' Hwf.
  - simpl mkdir_rev. destruct (mkdir_flat [] exist_ok m) as [m1|e] eqn:Hflat.
    + intros [= <-]. eapply mkdir_flat_wf; eauto.
    + destruct e; discriminate.
  - cbn [mkdir_rev]. destruct (mkdir_flat (rev (x :: rparent)) exist_ok m) as [m1|e] eqn:Hflat.
    + intros [= <-]. eapply mkdir_flat_wf; eauto.
    + destruct e; try discriminate.
      destruct parents; [|discriminate].
      destruct (mkdir_rev rparent true true m) as [m1|e] eqn:Hparent; [|discriminate].
      intros Hagain. eapply mkdir_flat_wf; [|exact Hagain]. eapply IH; eauto.
Qed.

(** In a well-formed file system every prefix of a directory is one. *)
Lemma fs_wf_ancestors (m : gmap path node) (p : path) :
  fs_wf m -> is_dir m p = true -> forall q, q `prefix_of` p -> is_dir m q = true.
Proof.
  intros Hwf. induction p as [|x p' IH] using rev_ind; intros Hd q [k Hk].
  - symmetry in Hk. apply app_eq_nil in Hk as [-> _]. reflexivity.
  - destruct k as [|y k' _] using rev_ind.
    + rewrite app_nil_r in Hk. now subst q.
    + rewrite app_assoc in Hk. apply app_inj_tail in Hk as [Hk _].
      apply IH; [|now exists k'].
      change (p' ++ [x]) with (joinpath p' x) in Hd.
      unfold is_dir in Hd. rewrite (node_at_joinpath m p' x) in Hd.
      destruct (m !! joinpath p' x) as [[|d]|] eqn:Hnode; try discriminate.
      apply Hwf in Hnode. now rewrite parent_joinpath in Hnode.
Qed.

Lemma ancestors_prefix (p q : path) :
  q `prefix_of` p -> q = [] \/ In q (ancestors p).
Proof.
  intros [k ->]. destruct q as [|x q']; [now left | right].
  unfold ancestors. apply in_map_iff. exists (length (x :: q')). split.
  - apply take_app_length.
  - apply in_seq. rewrite length_app. simpl. lia.
Qed.

Lemma joinpath_ne_name (p : path) (n1 n2 : string) :
  n1 <> n2 -> joinpath p n1 <> joinpath p n2.
Proof.
  intros Hne Heq. unfold joinpath in Heq. apply app_inj_tail in Heq as [_ Heq]. contradiction.
Qed.

(** Looking up one of the output paths in a map built by the run's writes. *)
Ltac lookup_output :=
  repeat first
    [ apply lookup_insert_eq
    | rewrite lookup_insert_ne by (apply joinpath_ne_name; discriminate) ].

(** ** The run of the script *)

Lemma render_rendered (size : Z) (img : Image) : render size = Ok img <-> rendered size img.
Proof.
  unfold render, rendered. split.
  - destruct (draw_circle_gradient _) as [[[[radius cx] cy] g]|e] eqn:Hg; [|discriminate].
    destruct (draw_accent radius cx cy size g) as [[[] img']|e] eqn:Ha; [|discriminate].
    intros [= <-]. exists radius, cx, cy, g. auto.
  - intros (radius & cx & cy & g & -> & ->). reflexivity.
Qed.

Lemma render_total : Forall (fun size => exists img, render size = Ok img) (map fst exports).
Proof. repeat constructor; eexists; vm_compute; reflexivity. Qed.

Section ScriptFacts.
Context `{Pillow}.

(** One round of the export loop: render, then save under the file name. *)
Lemma export_one_render (size : Z) (filename : string) (w : World) :
  export_one (size, filename) w
  = match render size with
    | Ok img => Image_save img (joinpath logo_dir filename) w
    | Raise e => Raise e
    end.
Proof.
  unfold export_one, render, draw_on, bind, lift.
  destruct (draw_circle_gradient _) as [[[[radius cx] cy] g]|e]; [|reflexivity].
  destruct (draw_accent radius cx cy size g) as [[[] img]|e]; reflexivity.
Qed.

Lemma export_one_Ok_inv (size : Z) (filename : string) (w w' : World) (u : unit) :
  export_one (size, filename) w = Ok (u, w') ->
  exists img,
    render size = Ok img /\
    node_at (fs w) logo_dir = Some Dir /\
    w' = mkWorld (<[joinpath logo_dir filename := File (png_encode img)]> (fs w))
                 (events w ++ [EvWrite (joinpath logo_dir filename) (png_encode img)]).
Proof.
  rewrite export_one_render. destruct (render size) as [img|e]; [|discriminate].
  unfold Image_save. intros Hw. apply write_file_Ok_inv in Hw as (Hdir & _ & ->).
  rewrite parent_joinpath in Hdir. eauto.
Qed.

(** What a successful run leaves behind, step by step. *)
Lemma main_Ok_inv (w w' : World) :
  main w = Ok (tt, w') ->
  exists m img16 img32 img180,
    mkdir_rev (rev logo_dir) true true (fs w) = Ok m /\
    render 16 = Ok img16 /\ render 32 = Ok img32 /\ render 180 = Ok img180 /\
    let p16 := joinpath logo_dir "favicon-16x16.png" in
    let p32 := joinpath logo_dir "favicon-32x32.png" in
    let p180 := joinpath logo_dir "apple-touch-icon.png" in
    let pico := joinpath logo_dir "favicon.ico" in
    let base := Image_open (png_size (png_encode img32)) (png_encode img32) in
    let ico := ico_encode (Image_resize base (16, 16) LANCZOS) ico_sizes in
    w' = mkWorld
           (<[pico := File ico]>
              (<[p180 := File (png_encode img180)]>
                 (<[p32 := File (png_encode img32)]>
                    (<[p16 := File (png_encode img16)]> m))))
           (events w ++ [EvMkdir logo_dir;
                         EvWrite p16 (png_encode img16);
                         EvWrite p32 (png_encode img32);
                         EvWrite p180 (png_encode img180);
                         EvRead p32;
                         EvWrite pico ico]).
Proof.
  intros Hmain. unfold main in Hmain.
  apply bind_Ok_inv in Hmain as ([] & w1 & Hmk & Hmain).
  apply Path_mkdir_Ok_inv in Hmk as (m & Hm & ->).
  apply bind_Ok_inv in Hmain as ([] & w4 & Hloop & Hmain).
  unfold exports in Hloop. cbn [for_] in Hloop.
  apply bind_Ok_inv in Hloop as ([] & w2 & H16 & Hloop).
  apply bind_Ok_inv in Hloop as ([] & w3 & H32 & Hloop).
  apply bind_Ok_inv in Hloop as ([] & w4' & H180 & Hloop).
  injection Hloop as <-.
  apply export_one_Ok_inv in H16 as (img16 & Hr16 & _ & ->).
  apply export_one_Ok_inv in H32 as (img32 & Hr32 & _ & ->).
  apply export_one_Ok_inv in H180 as (img180 & Hr180 & _ & ->).
  apply bind_Ok_inv in Hmain as (base & w5 & Hopen & Hmain).
  unfold Image_open_path in Hopen.
  apply bind_Ok_inv in Hopen as (data & w5' & Hread & Hopen).
  injection Hopen as <- <-.
  apply read_file_Ok_inv in Hread as (Hdata & ->).
  rewrite node_at_joinpath in Hdata. cbn [fs] in Hdata.
  rewrite lookup_insert_ne in Hdata by (vm_compute; discriminate).
  rewrite lookup_insert_eq in Hdata. injection Hdata as <-.
  apply bind_Ok_inv in Hmain as (icon0 & w6 & Hidx & Hmain).
  cbn in Hidx. injection Hidx as <- <-.
  unfold Image_save_ico in Hmain.
  apply write_file_Ok_inv in Hmain as (_ & _ & ->).
  exists m, img16, img32, img180. repeat split; try assumption.
  cbn [fs events]. rewrite <- !app_assoc. reflexivity.
Qed.

End ScriptFacts.

Lemma render_generated :
  exists img16 img32 img180,
    render 16 = Ok img16 /\ render 32 = Ok img32 /\ render 180 = Ok img180.
Proof.
  pose proof render_total as Hall. unfold exports in Hall. simpl in Hall.
  inversion Hall as [|? ? [img16 H16] Hall1]; subst.
  inversion Hall1 as [|? ? [img32 H32] Hall2]; subst.
  inversion Hall2 as [|? ? [img180 H180] _]; subst.
  exists img16, img32, img180. auto.
Qed.

Section RunFacts.
Context `{Pillow}.

(** The run succeeds whenever no prefix of the output directory is a file
    and none of the four output paths is a directory. *)
Lemma main_total (w : World) :
  (forall q, q `prefix_of` logo_dir -> is_file (fs w) q = false) ->
  (forall name, In name output_names -> is_dir (fs w) (joinpath logo_dir name) = false) ->
  exists w', main w = Ok (tt, w').
Proof.
  intros Hclear Hout.
  destruct (mkdir_rev_total (rev logo_dir) (fs w)) as [m Hm]; [exact Hclear|].
  pose proof (mkdir_rev_creates _ _ _ _ _ Hm) as [Hdir Hadd].
  change (rev (rev logo_dir)) with logo_dir in Hdir, Hadd.
  assert (Hdir' : node_at m logo_dir = Some Dir).
  { unfold is_dir in Hdir. destruct (node_at m logo_dir) as [[|d]|]; congruence. }
  assert (Hout' : forall name, In name output_names ->
                    is_dir m (joinpath logo_dir name) = false).
  { intros name Hname. specialize (Hout name Hname). unfold is_dir in *.
    rewrite node_at_joinpath in *. now rewrite (dirs_added_below _ _ _ _ Hadd). }
  destruct render_generated as (img16 & img32 & img180 & H16 & H32 & H180).
  eexists. unfold main.
  erewrite bind_Ok; [|unfold Path_mkdir; rewrite Hm; reflexivity].
  erewrite bind_Ok; cycle 1.
  { unfold exports. cbn [for_].
    erewrite bind_Ok; cycle 1.
    { rewrite export_one_render, H16. unfold Image_save. apply write_file_Ok.
      - now rewrite parent_joinpath.
      - apply Hout'. simpl. tauto. }
    erewrite bind_Ok; cycle 1.
    { rewrite export_one_render, H32. unfold Image_save. apply write_file_Ok; cbn [fs].
      - rewrite parent_joinpath, node_at_insert_ne by (vm_compute; discriminate). exact Hdir'.
      - rewrite is_dir_insert_ne by (vm_compute; discriminate). apply Hout'. simpl. tauto. }
    erewrite bind_Ok; cycle 1.
    { rewrite export_one_render, H180. unfold Image_save. apply write_file_Ok; cbn [fs].
      - rewrite parent_joinpath, !node_at_insert_ne by (vm_compute; discriminate). exact Hdir'.
      - rewrite !is_dir_insert_ne by (vm_compute; discriminate). apply Hout'. simpl. tauto. }
    reflexivity. }
  erewrite bind_Ok; cycle 1.
  { unfold Image_open_path. erewrite bind_Ok; [reflexivity|].
    unfold read_file. cbn [fs]. rewrite node_at_joinpath.
    rewrite lookup_insert_ne by (vm_compute; discriminate).
    rewrite lookup_insert_eq. reflexivity. }
  erewrite bind_Ok; [|reflexivity].
  unfold Image_save_ico. apply write_file_Ok; cbn [fs].
  - rewrite parent_joinpath, !node_at_insert_ne by (vm_compute; discriminate). exact Hdir'.
  - rewrite !is_dir_insert_ne by (vm_compute; discriminate). apply Hout'. simpl. tauto.
Qed.

(** C6. A successful run makes exactly these file-system calls, in this
    order: the [mkdir], one PNG save for each of the three pairs
    (16, favicon-16x16.png), (32, favicon-32x32.png) and
    (180, apple-touch-icon.png), the read of the 32-pixel PNG and the save of
    favicon.ico; there is no other save. The image of each PNG save is a fresh
    square RGBA canvas of the pair's size filled with the background colour
    (5, 12, 26), drawn by the gradient renderer and then by the accent
    renderer, and the file of that name under [logo_dir] holds its encoding
    afterwards. *)
Theorem export_loop_order (w w' : World) :
  main w = Ok (tt, w') ->
  exists img16 img32 img180,
    Forall2 (fun (item : Z * string) (img : Image) =>
               exists radius cx cy g,
                 draw_circle_gradient (Image_new "RGBA" (fst item, fst item) (RGB 5 12 26))
                 = Ok (radius, cx, cy, g) /\
                 draw_accent radius cx cy (fst item) g = Ok (tt, img))
            [(16, "favicon-16x16.png"); (32, "favicon-32x32.png");
             (180, "apple-touch-icon.png")]
            [img16; img32; img180] /\
    events w' = events w ++
                [EvMkdir logo_dir;
                 EvWrite (joinpath logo_dir "favicon-16x16.png") (png_encode img16);
                 EvWrite (joinpath logo_dir "favicon-32x32.png") (png_encode img32);
                 EvWrite (joinpath logo_dir "apple-touch-icon.png") (png_encode img180);
                 EvRead (joinpath logo_dir "favicon-32x32.png");
                 EvWrite (joinpath logo_dir "favicon.ico")
                         (ico_encode
                            (Image_resize
                               (Image_open (png_size (png_encode img32)) (png_encode img32))
                               (16, 16) LANCZOS)
                            ico_sizes)] /\
    fs w' !! joinpath logo_dir "favicon-16x16.png" = Some (File (png_encode img16)) /\
    fs w' !! joinpath logo_dir "favicon-32x32.png" = Some (File (png_encode img32)) /\
    fs w' !! joinpath logo_dir "apple-touch-icon.png" = Some (File (png_encode img180)).
Proof.
  intros Hmain.
  apply main_Ok_inv in Hmain as (m & img16 & img32 & img180 & _ & H16 & H32 & H180 & ->).
  apply render_rendered in H16, H32, H180.
  exists img16, img32, img180.
  split; [repeat constructor; assumption|].
  cbn [fs events]. split; [reflexivity|].
  repeat split; lookup_output.
Qed.

(** A successful run leaves every path that is not one of its four outputs
    as it was, except that it creates the missing directories on the way to
    [logo_dir]. *)
Lemma main_Ok_frame (w w' : World) :
  main w = Ok (tt, w') ->
  forall p, ~ In p (map (joinpath logo_dir) output_names) ->
    fs w' !! p = fs w !! p \/
    (p `prefix_of` logo_dir /\ fs w !! p = None /\ fs w' !! p = Some Dir).
Proof.
  intros Hmain p Hp.
  apply main_Ok_inv in Hmain as (m & img16 & img32 & img180 & Hm & _ & _ & _ & ->).
  apply mkdir_rev_creates in Hm as [_ Hadd].
  change (rev (rev logo_dir)) with logo_dir in Hadd.
  cbn [fs]. simpl in Hp.
  rewrite !lookup_insert_ne by (intros <-; apply Hp; tauto).
  apply Hadd.
Qed.

(** C3, what the code does. The only image handed to the ICO encoder is the
    16x16 resampling of the reopened 32x32 PNG ([icons[0]]); the 32x32 and
    64x64 resamplings are computed and never saved. *)
Theorem icon_bundle_source (w w' : World) :
  main w = Ok (tt, w') ->
  exists img32,
    rendered 32 img32 /\
    fs w' !! joinpath logo_dir "favicon-32x32.png" = Some (File (png_encode img32)) /\
    let base := Image_open (png_size (png_encode img32)) (png_encode img32) in
    let icon0 := Image_resize base (16, 16) LANCZOS in
    fs w' !! joinpath logo_dir "favicon.ico" = Some (File (ico_encode icon0 ico_sizes)) /\
    Image_size icon0 = (16, 16) /\
    ico_sizes = [(16, 16); (32, 32); (64, 64)] /\
    ico_sizes_kept icon0 ico_sizes = [(16, 16)].
Proof.
  intros Hmain.
  apply main_Ok_inv in Hmain as (m & img16 & img32 & img180 & _ & _ & H32 & _ & ->).
  apply render_rendered in H32. exists img32. split; [exact H32|].
  cbn [fs]. split.
  - lookup_output.
  - repeat split. lookup_output.
Qed.

(** C7, as the code has it. A successful run has created the output
    directory before writing anything, with its missing parents when the
    file system is well formed; creating it again is accepted and changes
    nothing; the run writes the four output files and no other, so that they
    all exist afterwards; every other path holds what it held before, the
    created directories apart, so that every other file is as it was, with
    its contents; and the directory holds exactly these four files when it
    held no other file before. *)
Theorem output_directory (w w' : World) :
  main w = Ok (tt, w') ->
  is_dir (fs w') logo_dir = true /\
  (fs_wf (fs w) -> forall q, q `prefix_of` logo_dir -> is_dir (fs w') q = true) /\
  (forall w0, is_dir (fs w0) logo_dir = true ->
     Path_mkdir logo_dir true true w0 = Ok (tt, mkWorld (fs w0) (events w0 ++ [EvMkdir logo_dir]))) /\
  (exists later,
     events w' = events w ++ EvMkdir logo_dir :: later /\
     written later = map (joinpath logo_dir) output_names) /\
  (forall name, In name output_names -> is_file (fs w') (joinpath logo_dir name) = true) /\
  (forall p, ~ In p (map (joinpath logo_dir) output_names) ->
     fs w' !! p = fs w !! p \/
     (p `prefix_of` logo_dir /\ fs w !! p = None /\ fs w' !! p = Some Dir)) /\
  (forall p data, ~ In p (map (joinpath logo_dir) output_names) ->
     (fs w' !! p = Some (File data) <-> fs w !! p = Some (File data))) /\
  ((forall name, is_file (fs w) (joinpath logo_dir name) = true -> In name output_names) ->
   exactly_four_outputs (fs w')).
Proof.
  intros Hmain.
  pose proof (main_Ok_frame w w' Hmain) as Hkeep.
  apply main_Ok_inv in Hmain as (m & img16 & img32 & img180 & Hm & _ & _ & _ & ->).
  pose proof (mkdir_rev_creates _ _ _ _ _ Hm) as [Hdir Hadd].
  change (rev (rev logo_dir)) with logo_dir in Hdir, Hadd.
  cbn [fs events].
  assert (Hprefix : forall q, q `prefix_of` logo_dir ->
            forall (m0 : gmap path node) name n,
              is_dir (<[joinpath logo_dir name := n]> m0) q = is_dir m0 q).
  { intros q Hq m0 name n. apply is_dir_insert_ne. intros <-.
    now apply joinpath_not_prefix in Hq. }
  assert (Hfiles : forall p, ~ In p (map (joinpath logo_dir) output_names) ->
            is_file (<[joinpath logo_dir "favicon.ico" := File (ico_encode (Image_resize (Image_open (png_size (png_encode img32)) (png_encode img32)) (16, 16) LANCZOS) ico_sizes)]>
                       (<[joinpath logo_dir "apple-touch-icon.png" := File (png_encode img180)]>
                          (<[joinpath logo_dir "favicon-32x32.png" := File (png_encode img32)]>
                             (<[joinpath logo_dir "favicon-16x16.png" := File (png_encode img16)]> m)))) p
            = is_file (fs w) p).
  { intros p Hp. simpl in Hp.
    rewrite !is_file_insert_ne by (intros <-; apply Hp; tauto).
    apply (dirs_added_is_file _ _ _ _ Hadd). }
  assert (Hfour : forall name, In name output_names ->
            is_file (<[joinpath logo_dir "favicon.ico" := File (ico_encode (Image_resize (Image_open (png_size (png_encode img32)) (png_encode img32)) (16, 16) LANCZOS) ico_sizes)]>
                       (<[joinpath logo_dir "apple-touch-icon.png" := File (png_encode img180)]>
                          (<[joinpath logo_dir "favicon-32x32.png" := File (png_encode img32)]>
                             (<[joinpath logo_dir "favicon-16x16.png" := File (png_encode img16)]> m))))
                    (joinpath logo_dir name) = true).
  { intros name Hname. simpl in Hname. destruct Hname as [<-|[<-|[<-|[<-|[]]]]];
      repeat first
        [ apply is_file_insert_file; discriminate
        | rewrite is_file_insert_ne by (apply joinpath_ne_name; discriminate) ]. }
  split; [now rewrite !Hprefix by reflexivity|].
  split.
  { intros Hwf q Hq. rewrite !Hprefix by exact Hq.
    apply (fs_wf_ancestors m logo_dir); [|exact Hdir | exact Hq].
    eapply mkdir_rev_wf; eauto. }
  split.
  { intros w0 Hd0. unfold Path_mkdir.
    assert (Hflat : mkdir_rev (rev logo_dir) true true (fs w0) = Ok (fs w0)).
    { change (rev logo_dir) with ("favicons" :: rev (parent logo_dir)).
      cbn [mkdir_rev]. change (rev ("favicons" :: rev (parent logo_dir))) with logo_dir.
      unfold mkdir_flat, os_mkdir. unfold is_dir in Hd0 |- *.
      destruct (node_at (fs w0) logo_dir) as [[|d]|]; try discriminate. reflexivity. }
    rewrite Hflat. destruct w0; reflexivity. }
  split.
  { eexists [_; _; _; _; _]. split; reflexivity. }
  split; [exact Hfour|]. split; [exact Hkeep|].
  split.
  { intros p data Hp. destruct (Hkeep p Hp) as [Heq | (_ & Hnone & Hdir')].
    - cbn [fs] in Heq. now rewrite Heq.
    - cbn [fs] in Hdir'. rewrite Hnone, Hdir'. split; discriminate. }
  intros Hbefore name. split.
  - intros Hname. destruct (in_dec String.string_dec name output_names) as [Hin|Hnot]; [exact Hin|].
    apply Hbefore. rewrite <- Hname. symmetry. apply Hfiles.
    intros Hin. apply in_map_iff in Hin as (name' & Heq & Hin').
    unfold joinpath in Heq. apply app_inj_tail in Heq as [_ ->]. contradiction.
  - apply Hfour.
Qed.

End RunFacts.

Section RunAgain.
Context `{Pillow}.

(** The script can be run again on what it left. *)
Lemma main_rerun (w w' : World) :
  (forall q, q `prefix_of` logo_dir -> is_file (fs w) q = false) ->
  main w = Ok (tt, w') ->
  exists w'', main w' = Ok (tt, w'').
Proof.
  intros Hclear Hrun.
  apply main_Ok_inv in Hrun as (m & img16 & img32 & img180 & Hm & _ & _ & _ & ->).
  apply mkdir_rev_creates in Hm as [_ Hadd].
  apply main_total; cbn [fs].
  - intros q Hq.
    rewrite !is_file_insert_ne
      by (intros <-; now apply joinpath_not_prefix in Hq).
    rewrite (dirs_added_is_file _ _ _ _ Hadd). now apply Hclear.
  - intros name Hname. simpl in Hname. unfold is_dir.
    destruct Hname as [<-|[<-|[<-|[<-|[]]]]]; rewrite node_at_joinpath;
      repeat first
        [ rewrite lookup_insert_eq; reflexivity
        | rewrite lookup_insert_ne by (apply joinpath_ne_name; discriminate) ].
Qed.

End RunAgain.

(** ** Concrete runs *)

Lemma after_run_eq (w w' : World) : @main dims_codec w = Ok (tt, w') -> after_run w = w'.
Proof. unfold after_run. now intros ->. Qed.

Lemma empty_world_clear (q : path) : is_file (fs empty_world) q = false.
Proof. destruct q; reflexivity. Qed.

(** The script run from nothing, and run again on what it left. *)
Lemma first_run : @main dims_codec empty_world = Ok (tt, after_run empty_world).
Proof.
  destruct (@main_total dims_codec empty_world) as [w' Hrun].
  - intros q _. apply empty_world_clear.
  - intros name _. unfold is_dir. now rewrite node_at_joinpath.
  - now rewrite (after_run_eq _ _ Hrun).
Qed.

Lemma second_run :
  @main dims_codec (after_run empty_world) = Ok (tt, after_run (after_run empty_world)).
Proof.
  destruct (@main_rerun dims_codec empty_world (after_run empty_world)) as [w'' Hrun].
  - intros q _. apply empty_world_clear.
  - exact first_run.
  - now rewrite (after_run_eq _ _ Hrun).
Qed.

(** C6 on the run from an empty file system. *)
Lemma export_loop_order_witness :
  exists img16 img32 img180,
    Forall2 (fun (item : Z * string) (img : Image) =>
               exists radius cx cy g,
                 draw_circle_gradient (Image_new "RGBA" (fst item, fst item) (RGB 5 12 26))
                 = Ok (radius, cx, cy, g) /\
                 draw_accent radius cx cy (fst item) g = Ok (tt, img))
            [(16, "favicon-16x16.png"); (32, "favicon-32x32.png");
             (180, "apple-touch-icon.png")]
            [img16; img32; img180] /\
    events (after_run empty_world)
    = events empty_world ++
      [EvMkdir logo_dir;
       EvWrite (joinpath logo_dir "favicon-16x16.png") (dims_encode img16);
       EvWrite (joinpath logo_dir "favicon-32x32.png") (dims_encode img32);
       EvWrite (joinpath logo_dir "apple-touch-icon.png") (dims_encode img180);
       EvRead (joinpath logo_dir "favicon-32x32.png");
       EvWrite (joinpath logo_dir "favicon.ico")
               (@ico_encode dims_codec
                  (Image_resize
                     (Image_open (dims_decode (dims_encode img32)) (dims_encode img32))
                     (16, 16) LANCZOS)
                  ico_sizes)] /\
    fs (after_run empty_world) !! joinpath logo_dir "favicon-16x16.png"
    = Some (File (dims_encode img16)) /\
    fs (after_run empty_world) !! joinpath logo_dir "favicon-32x32.png"
    = Some (File (dims_encode img32)) /\
    fs (after_run empty_world) !! joinpath logo_dir "apple-touch-icon.png"
    = Some (File (dims_encode img180)).
Proof.
  exact (@export_loop_order dims_codec empty_world (after_run empty_world) first_run).
Defined.

(** C3 on the run from an empty file system. *)
Lemma icon_bundle_source_witness :
  exists img32,
    rendered 32 img32 /\
    fs (after_run empty_world) !! joinpath logo_dir "favicon-32x32.png"
    = Some (File (dims_encode img32)) /\
    let base := Image_open (dims_decode (dims_encode img32)) (dims_encode img32) in
    let icon0 := Image_resize base (16, 16) LANCZOS in
    fs (after_run empty_world) !! joinpath logo_dir "favicon.ico"
    = Some (File (@ico_encode dims_codec icon0 ico_sizes)) /\
    Image_size icon0 = (16, 16) /\
    ico_sizes = [(16, 16); (32, 32); (64, 64)] /\
    ico_sizes_kept icon0 ico_sizes = [(16, 16)].
Proof.
  exact (@icon_bundle_source dims_codec empty_world (after_run empty_world) first_run).
Defined.

(** C7 on the run from an empty file system. *)
Lemma output_directory_witness :
  is_dir (fs (after_run empty_world)) logo_dir = true /\
  (fs_wf (fs empty_world) ->
   forall q, q `prefix_of` logo_dir -> is_dir (fs (after_run empty_world)) q = true) /\
  (forall w0, is_dir (fs w0) logo_dir = true ->
     Path_mkdir logo_dir true true w0
     = Ok (tt, mkWorld (fs w0) (events w0 ++ [EvMkdir logo_dir]))) /\
  (exists later,
     events (after_run empty_world) = events empty_world ++ EvMkdir logo_dir :: later /\
     written later = map (joinpath logo_dir) output_names) /\
  (forall name, In name output_names ->
     is_file (fs (after_run empty_world)) (joinpath logo_dir name) = true) /\
  (forall p, ~ In p (map (joinpath logo_dir) output_names) ->
     fs (after_run empty_world) !! p = fs empty_world !! p \/
     (p `prefix_of` logo_dir /\ fs empty_world !! p = None /\
      fs (after_run empty_world) !! p = Some Dir)) /\
  (forall p data, ~ In p (map (joinpath logo_dir) output_names) ->
     (fs (after_run empty_world) !! p = Some (File data)
      <-> fs empty_world !! p = Some (File data))) /\
  ((forall name, is_file (fs empty_world) (joinpath logo_dir name) = true ->
                 In name output_names) ->
   exactly_four_outputs (fs (after_run empty_world))).
Proof.
  exact (@output_directory dims_codec empty_world (after_run empty_world) first_run).
Defined.

Lemma populated_world_clear :
  Forall (fun q => is_file (fs populated_world) q = false) ([] :: ancestors logo_dir) /\
  Forall (fun name => is_dir (fs populated_world) (joinpath logo_dir name) = false)
         output_names.
Proof. split; repeat constructor; vm_compute; reflexivity. Qed.

(** C7 as stated fails when the directory already holds another file: the
    run succeeds (whatever the codecs), the other file is still there, and
    the directory holds five files, not four. *)
Lemma other_files_remain :
  is_dir (fs populated_world) logo_dir = true /\
  forall P : Pillow,
  exists w',
    @main P populated_world = Ok (tt, w') /\
    is_file (fs w') (joinpath logo_dir "site.webmanifest") = true /\
    (forall name, In name output_names -> is_file (fs w') (joinpath logo_dir name) = true) /\
    ~ In "site.webmanifest" output_names /\
    ~ exactly_four_outputs (fs w').
Proof.
  split; [reflexivity|]. intros P.
  destruct populated_world_clear as [Hclear Hout].
  destruct (@main_total P populated_world) as [w' Hrun].
  { intros q Hq. rewrite List.Forall_forall in Hclear. apply Hclear.
    destruct (ancestors_prefix _ _ Hq) as [->|Hin]; [now left | now right]. }
  { rewrite List.Forall_forall in Hout. exact Hout. }
  exists w'. split; [exact Hrun|].
  assert (Hother : is_file (fs w') (joinpath logo_dir "site.webmanifest") = true).
  { apply main_Ok_inv in Hrun as (m & img16 & img32 & img180 & Hm & _ & _ & _ & ->).
    apply mkdir_rev_creates in Hm as [_ Hadd]. cbn [fs].
    rewrite !is_file_insert_ne by (apply joinpath_ne_name; discriminate).
    rewrite (dirs_added_is_file _ _ _ _ Hadd). reflexivity. }
  assert (Hnot : ~ In "site.webmanifest" output_names).
  { simpl. intuition discriminate. }
  split; [exact Hother|]. split; [|split; [exact Hnot|]].
  - intros name Hname.
    apply main_Ok_inv in Hrun as (m & img16 & img32 & img180 & _ & _ & _ & _ & ->).
    cbn [fs]. simpl in Hname. destruct Hname as [<-|[<-|[<-|[<-|[]]]]];
      repeat first
        [ apply is_file_insert_file; discriminate
        | rewrite is_file_insert_ne by (apply joinpath_ne_name; discriminate) ].
  - intros Hfour. apply Hnot, Hfour, Hother.
Qed.

(** ** Further properties of the script *)

(** On each of the three canvases every drawing call of the two renderers,
    the accent strokes included, has its box inside the box of the outermost
    gradient disc, [cx - radius .. cx + radius] in both directions. *)
Theorem calls_inside_disc_box :
  Forall (fun size : Z =>
    exists radius cx cy g img,
      draw_circle_gradient (Image_new "RGBA" (size, size) background) = Ok (radius, cx, cy, g) /\
      draw_accent radius cx cy size g = Ok (tt, img) /\
      cx = cy /\
      forallb (fun op => box_inside (cx - radius) (cx + radius) (op_box op)) (calls img) = true)
    (map fst exports).
Proof.
  repeat constructor;
    (eexists _, _, _, _, _;
     split; [vm_compute; reflexivity|];
     split; [vm_compute; reflexivity|];
     split; [reflexivity|];
     vm_compute; reflexivity).
Qed.

(** *** Where the calls land *)

Lemma calls_fold_left (ops : list draw_op) (img : Image) :
  calls (fold_left Image_draw ops img) = calls img ++ ops.
Proof.
  revert img. induction ops as [|op rest IH]; intros img; simpl.
  - now rewrite app_nil_r.
  - rewrite IH. simpl. now rewrite <- app_assoc.
Qed.

(** The accent renderer makes the same calls on every canvas, after the
    calls already made. *)
Lemma draw_accent_appends (radius cx cy size : Z) (g : Image) :
  draw_accent radius cx cy size g
  = match accent_calls radius cx cy size with
    | Ok ops => Ok (tt, fold_left Image_draw ops g)
    | Raise e => Raise e
    end.
Proof.
  unfold accent_calls, draw_accent, bind, arc, ellipse, modify, lift.
  destruct (py_int (radius * 0.25%float)%py) as [highlight|e]; reflexivity.
Qed.

Lemma accents_checked : forallb accent_inside (countdown 640) = true.
Proof. vm_cast_no_check (eq_refl true). Qed.

(** X2. On every canvas of side 1 to 640 both renderers run to the end, and
    every call they make, the [radius] gradient discs and the three accent
    calls, has an ordered box ([x0 <= x1], [y0 <= y1]) that lies inside the
    canvas and inside the box of the outermost disc. *)
Theorem calls_stay_inside (size : Z) :
  1 <= size <= 640 ->
  exists radius cx g img,
    radius = 2 * size / 5 /\ cx = size / 2 /\
    draw_circle_gradient (Image_new "RGBA" (size, size) background) = Ok (radius, cx, cx, g) /\
    draw_accent radius cx cx size g = Ok (tt, img) /\
    length (calls img) = (Z.to_nat radius + 3)%nat /\
    0 <= cx - radius /\ cx + radius <= size - 1 /\
    Forall (fun op => box_ordered (op_box op) = true /\
                      box_within 0 (size - 1) (op_box op) = true /\
                      box_within (cx - radius) (cx + radius) (op_box op) = true)
           (calls img).
Proof.
  intros Hsize.
  destruct (gradient_rings (Image_new "RGBA" (size, size) background) size)
    as (ops & Hrun & Hrings); [reflexivity | lia |].
  pose proof accents_checked as Hacc. rewrite forallb_forall in Hacc.
  specialize (Hacc size (countdown_In 640 size ltac:(lia))).
  unfold accent_inside in Hacc.
  set (radius := 2 * size / 5) in *. set (cx := size / 2) in *.
  assert (Hgeom : 0 <= radius /\ 0 <= cx - radius /\ cx + radius <= size - 1).
  { subst radius cx. Z.div_mod_to_equations. lia. }
  destruct (accent_calls radius cx cx size) as [aops|e] eqn:Haops; [|discriminate].
  destruct (py_int (radius * 0.25%float)%py) as [highlight|e]; [|discriminate].
  apply andb_prop in Hacc as [Hacc Hboxes]. apply andb_prop in Hacc as [Hlen _].
  apply Nat.eqb_eq in Hlen.
  exists radius, cx, (fold_left Image_draw ops (Image_new "RGBA" (size, size) background)),
    (fold_left Image_draw aops
       (fold_left Image_draw ops (Image_new "RGBA" (size, size) background))).
  split; [reflexivity|]. split; [reflexivity|]. split; [exact Hrun|].
  split; [now rewrite draw_accent_appends, Haops|].
  rewrite !calls_fold_left. simpl calls. rewrite app_nil_l.
  split.
  { rewrite length_app, Hlen. f_equal.
    apply Forall2_length in Hrings. rewrite <- Hrings.
    unfold countdown. now rewrite length_map, length_seq. }
  split; [lia|]. split; [lia|].
  apply Forall_app. split.
  - eapply Forall2_Forall_r; [exact Hrings|].
    apply List.Forall_forall. intros i Hi op (fill & _ & ->).
    apply countdown_bounds in Hi. simpl. unfold coord_within.
    repeat split; repeat (apply andb_true_intro; split); apply Z.leb_le; lia.
  - rewrite forallb_forall in Hboxes. apply List.Forall_forall. intros op Hop.
    specialize (Hboxes op Hop).
    apply andb_prop in Hboxes as [Hb Hdisc]. apply andb_prop in Hb as [Hord Hcanvas].
    auto.
Qed.

(** X2 on the 16-pixel canvas. *)
Lemma calls_stay_inside_witness :
  exists radius cx g img,
    radius = 2 * 16 / 5 /\ cx = 16 / 2 /\
    draw_circle_gradient (Image_new "RGBA" (16, 16) background) = Ok (radius, cx, cx, g) /\
    draw_accent radius cx cx 16 g = Ok (tt, img) /\
    length (calls img) = (Z.to_nat radius + 3)%nat /\
    0 <= cx - radius /\ cx + radius <= 16 - 1 /\
    Forall (fun op => box_ordered (op_box op) = true /\
                      box_within 0 (16 - 1) (op_box op) = true /\
                      box_within (cx - radius) (cx + radius) (op_box op) = true)
           (calls img).
Proof. apply (calls_stay_inside 16). lia. Defined.

(** *** When the run succeeds, and what a second run does *)

Lemma is_dir_not_file (m : gmap path node) (p : path) :
  is_dir m p = true -> is_file m p = false.
Proof. unfold is_dir, is_file. destruct (node_at m p) as [[|d]|]; congruence. Qed.

(** [mkdir] on a directory that exists changes nothing. *)
Lemma mkdir_rev_existing (rp : list string) (parents : bool) (m : gmap path node) :
  is_dir m (rev rp) = true -> mkdir_rev rp parents true m = Ok m.
Proof.
  intros Hd.
  assert (Hflat : mkdir_flat (rev rp) true m = Ok m).
  { unfold mkdir_flat, os_mkdir. unfold is_dir in Hd |- *.
    destruct (node_at m (rev rp)) as [[|d]|]; try discriminate. reflexivity. }
  destruct rp as [|x rparent]; cbn [mkdir_rev]; now rewrite Hflat.
Qed.

(** [icons[0]] is the 16x16 resampling. *)
Lemma icons_first (base : Image) :
  py_index (map (fun size => Image_resize base size LANCZOS) ico_sizes) 0
  = Ok (Image_resize base (16, 16) LANCZOS).
Proof. reflexivity. Qed.

Section RunTwice.
Context `{Pillow}.

(** The world the run leaves when the directory is in place and no output
    path is a directory. *)
Lemma main_after_mkdir (w : World) (m : gmap path node) (img16 img32 img180 : Image) :
  mkdir_rev (rev logo_dir) true true (fs w) = Ok m ->
  node_at m logo_dir = Some Dir ->
  (forall name, In name output_names -> is_dir m (joinpath logo_dir name) = false) ->
  render 16 = Ok img16 -> render 32 = Ok img32 -> render 180 = Ok img180 ->
  let p16 := joinpath logo_dir "favicon-16x16.png" in
  let p32 := joinpath logo_dir "favicon-32x32.png" in
  let p180 := joinpath logo_dir "apple-touch-icon.png" in
  let pico := joinpath logo_dir "favicon.ico" in
  let base := Image_open (png_size (png_encode img32)) (png_encode img32) in
  let ico := ico_encode (Image_resize base (16, 16) LANCZOS) ico_sizes in
  main w
  = Ok (tt, mkWorld
              (<[pico := File ico]>
                 (<[p180 := File (png_encode img180)]>
                    (<[p32 := File (png_encode img32)]>
                       (<[p16 := File (png_encode img16)]> m))))
              (events w ++ [EvMkdir logo_dir;
                            EvWrite p16 (png_encode img16);
                            EvWrite p32 (png_encode img32);
                            EvWrite p180 (png_encode img180);
                            EvRead p32;
                            EvWrite pico ico])).
Proof.
  intros Hm Hdir Hout H16 H32 H180. cbv zeta. unfold main.
  erewrite bind_Ok; [|unfold Path_mkdir; rewrite Hm; reflexivity].
  erewrite bind_Ok; cycle 1.
  { unfold exports. cbn [for_].
    erewrite bind_Ok; cycle 1.
    { rewrite export_one_render, H16. unfold Image_save. apply write_file_Ok.
      - now rewrite parent_joinpath.
      - apply Hout. simpl. tauto. }
    erewrite bind_Ok; cycle 1.
    { rewrite export_one_render, H32. unfold Image_save. apply write_file_Ok; cbn [fs].
      - rewrite parent_joinpath, node_at_insert_ne by apply joinpath_ne. exact Hdir.
      - rewrite is_dir_insert_ne by (apply joinpath_ne_name; discriminate).
        apply Hout. simpl. tauto. }
    erewrite bind_Ok; cycle 1.
    { rewrite export_one_render, H180. unfold Image_save. apply write_file_Ok; cbn [fs].
      - rewrite parent_joinpath, !node_at_insert_ne by apply joinpath_ne. exact Hdir.
      - rewrite !is_dir_insert_ne by (apply joinpath_ne_name; discriminate).
        apply Hout. simpl. tauto. }
    reflexivity. }
  erewrite bind_Ok; cycle 1.
  { unfold Image_open_path. erewrite bind_Ok; [reflexivity|].
    unfold read_file. cbn [fs]. rewrite node_at_joinpath.
    rewrite lookup_insert_ne by (apply joinpath_ne_name; discriminate).
    rewrite lookup_insert_eq. reflexivity. }
  erewrite bind_Ok; [|reflexivity].
  unfold Image_save_ico. rewrite write_file_Ok; cbn [fs events].
  - rewrite <- !app_assoc. reflexivity.
  - rewrite parent_joinpath, !node_at_insert_ne by apply joinpath_ne. exact Hdir.
  - rewrite !is_dir_insert_ne by (apply joinpath_ne_name; discriminate).
    apply Hout. simpl. tauto.
Qed.

Lemma not_Dir_is_dir (m : gmap path node) (q : path) :
  node_at m q <> Some Dir -> is_dir m q = false.
Proof. intros Hq. unfold is_dir. destruct (node_at m q) as [[|d]|]; congruence. Qed.

(** A round of the export loop that succeeded found no directory at the
    path it saves to. *)
Lemma export_one_Ok_free (size : Z) (filename : string) (w w' : World) (u : unit) :
  export_one (size, filename) w = Ok (u, w') ->
  is_dir (fs w) (joinpath logo_dir filename) = false.
Proof.
  rewrite export_one_render. destruct (render size) as [img|e]; [|discriminate].
  unfold Image_save. intros Hw. apply write_file_Ok_inv in Hw as (_ & Hfree & _).
  now apply not_Dir_is_dir.
Qed.

(** A successful run found none of its output paths occupied by a
    directory. *)
Lemma main_Ok_outputs (w w' : World) :
  main w = Ok (tt, w') ->
  forall name, In name output_names -> is_dir (fs w) (joinpath logo_dir name) = false.
Proof.
  intros Hmain. unfold main in Hmain.
  apply bind_Ok_inv in Hmain as ([] & w1 & Hmk & Hmain).
  apply Path_mkdir_Ok_inv in Hmk as (m & Hm & ->).
  apply mkdir_rev_creates in Hm as [_ Hadd].
  change (rev (rev logo_dir)) with logo_dir in Hadd.
  apply bind_Ok_inv in Hmain as ([] & w4 & Hloop & Hmain).
  unfold exports in Hloop. cbn [for_] in Hloop.
  apply bind_Ok_inv in Hloop as ([] & w2 & H16 & Hloop).
  apply bind_Ok_inv in Hloop as ([] & w3 & H32 & Hloop).
  apply bind_Ok_inv in Hloop as ([] & w4' & H180 & Hloop).
  injection Hloop as <-.
  pose proof (export_one_Ok_free _ _ _ _ _ H16) as N16.
  pose proof (export_one_Ok_free _ _ _ _ _ H32) as N32.
  pose proof (export_one_Ok_free _ _ _ _ _ H180) as N180.
  apply export_one_Ok_inv in H16 as (img16 & _ & _ & ->).
  apply export_one_Ok_inv in H32 as (img32 & _ & _ & ->).
  apply export_one_Ok_inv in H180 as (img180 & _ & _ & ->).
  apply bind_Ok_inv in Hmain as (base & w5 & Hopen & Hmain).
  unfold Image_open_path in Hopen.
  apply bind_Ok_inv in Hopen as (data & w5' & Hread & Hopen).
  injection Hopen as <- <-.
  apply read_file_Ok_inv in Hread as (_ & ->).
  apply bind_Ok_inv in Hmain as (icon0 & w6 & Hidx & Hmain).
  rewrite icons_first in Hidx. unfold lift in Hidx. injection Hidx as <- <-.
  unfold Image_save_ico in Hmain.
  apply write_file_Ok_inv in Hmain as (_ & Nico & _).
  apply not_Dir_is_dir in Nico.
  cbn [fs] in N16, N32, N180, Nico.
  rewrite is_dir_insert_ne in N32 by (apply joinpath_ne_name; discriminate).
  do 2 rewrite is_dir_insert_ne in N180 by (apply joinpath_ne_name; discriminate).
  do 3 rewrite is_dir_insert_ne in Nico by (apply joinpath_ne_name; discriminate).
  intros name Hname.
  assert (Hm0 : is_dir m (joinpath logo_dir name) = false).
  { simpl in Hname. destruct Hname as [<-|[<-|[<-|[<-|[]]]]]; assumption. }
  unfold is_dir in Hm0 |- *. rewrite node_at_joinpath in Hm0 |- *.
  now rewrite <- (dirs_added_below _ _ _ name Hadd).
Qed.

(** X3. A run that reaches its end on a well-formed file system started
    with no file at any prefix of the output directory and with no directory
    at any of the four output paths. *)
Theorem run_needs_clear_paths (w w' : World) :
  fs_wf (fs w) ->
  main w = Ok (tt, w') ->
  (forall q, q `prefix_of` logo_dir -> is_file (fs w) q = false) /\
  (forall name, In name output_names -> is_dir (fs w) (joinpath logo_dir name) = false).
Proof.
  intros Hwf Hmain. split; [|exact (main_Ok_outputs w w' Hmain)].
  apply main_Ok_inv in Hmain as (m & _ & _ & _ & Hm & _).
  pose proof (mkdir_rev_wf _ _ _ _ _ Hwf Hm) as Hwf'.
  apply mkdir_rev_creates in Hm as [Hdir Hadd].
  change (rev (rev logo_dir)) with logo_dir in Hdir, Hadd.
  intros q Hq. rewrite <- (dirs_added_is_file _ _ _ q Hadd).
  apply is_dir_not_file. now apply (fs_wf_ancestors m logo_dir).
Qed.

(** X4. Running the script again on what a successful run left also
    succeeds, and leaves every file and directory exactly as the first run
    left it; the second run makes the same six file-system calls. *)
Theorem run_twice (w w1 : World) :
  main w = Ok (tt, w1) ->
  exists w2,
    main w1 = Ok (tt, w2) /\
    fs w2 = fs w1 /\
    events w2 = events w1 ++ drop (length (events w)) (events w1).
Proof.
  intros Hmain.
  apply main_Ok_inv in Hmain as (m & img16 & img32 & img180 & Hm & H16 & H32 & H180 & ->).
  apply mkdir_rev_creates in Hm as [Hdir _].
  change (rev (rev logo_dir)) with logo_dir in Hdir.
  cbv zeta.
  set (m1 := <[joinpath logo_dir "favicon.ico" := _]> _).
  assert (Hdir1 : is_dir m1 logo_dir = true).
  { subst m1. rewrite !is_dir_insert_ne by apply joinpath_ne. exact Hdir. }
  eexists. split.
  - apply (main_after_mkdir _ m1 img16 img32 img180); try assumption.
    + cbn [fs]. fold m1. apply mkdir_rev_existing.
      now change (rev (rev logo_dir)) with logo_dir.
    + unfold is_dir in Hdir1. destruct (node_at m1 logo_dir) as [[|d]|]; congruence.
    + intros name Hname. unfold is_dir. rewrite node_at_joinpath. subst m1.
      simpl in Hname. destruct Hname as [<-|[<-|[<-|[<-|[]]]]];
        repeat first
          [ rewrite lookup_insert_eq; reflexivity
          | rewrite lookup_insert_ne by (apply joinpath_ne_name; discriminate) ].
  - cbn [fs events]. split.
    + rewrite (insert_id m1 (joinpath logo_dir "favicon-16x16.png"))
        by (subst m1; lookup_output).
      rewrite (insert_id m1 (joinpath logo_dir "favicon-32x32.png"))
        by (subst m1; lookup_output).
      rewrite (insert_id m1 (joinpath logo_dir "apple-touch-icon.png"))
        by (subst m1; lookup_output).
      apply insert_id. subst m1. lookup_output.
    + rewrite drop_app_length. reflexivity.
Qed.

End RunTwice.

(** X3 on the run from an empty file system. *)
Lemma run_needs_clear_paths_witness :
  (forall q, q `prefix_of` logo_dir -> is_file (fs empty_world) q = false) /\
  (forall name, In name output_names ->
                is_dir (fs empty_world) (joinpath logo_dir name) = false).
Proof.
  apply (@run_needs_clear_paths dims_codec empty_world (after_run empty_world)).
  - intros p n Hp. simpl in Hp. now rewrite lookup_empty in Hp.
  - exact first_run.
Defined.

(** X4 on the run from an empty file system. *)
Lemma run_twice_witness :
  exists w2,
    @main dims_codec (after_run empty_world) = Ok (tt, w2) /\
    fs w2 = fs (after_run empty_world) /\
    events w2 = events (after_run empty_world)
                ++ drop (length (events empty_world)) (events (after_run empty_world)).
Proof. exact (@run_twice dims_codec empty_world (after_run empty_world) first_run). Defined.

(** *** Pixels after the gradient, on every canvas up to 640 *)

Lemma ring_fill_byte (radius i : Z) (fill : ink) :
  1 <= i <= radius -> radius <= 256 ->
  ring_fill radius i = Ok fill -> opaque_byte_pixel (rgba fill).
Proof.
  intros Hi Hr Hfill.
  destruct (fill_in_range_inv radius i (fill_in_range_holds radius i Hi Hr))
    as (r & g & b & Hfill' & Hr' & Hg' & Hb' & _).
  rewrite Hfill' in Hfill. injection Hfill as <-. simpl.
  change (colors_ 0 0) with 46 in *. change (colors_ 1 0) with 0 in *.
  change (colors_ 0 1) with 227 in *. change (colors_ 1 1) with 197 in *.
  change (colors_ 0 2) with 255 in *. change (colors_ 1 2) with 161 in *.
  lia.
Qed.

Lemma Forall2_In_l {A B : Type} (P : A -> B -> Prop) (l : list A) (k : list B) :
  Forall2 P l k -> Forall2 (fun x y => In x l /\ P x y) l k.
Proof.
  induction 1 as [|x y l' k' Hxy _ IH]; constructor.
  - split; [now left | exact Hxy].
  - eapply Forall2_impl; [exact IH|]. intros x' y' [Hin HP]. split; [now right | exact HP].
Qed.

Section AnyRasteriser.
Variable covers : Z -> Z -> Z -> Z -> Z -> Z -> bool.

(** Outside the canvas there is no pixel, before and after the discs. *)
Lemma getpixel_rings_none (cx cy : Z) (idx : list Z) (ops : list draw_op) :
  rings_around cx cy idx ops ->
  forall img x y, getpixel covers img x y = None ->
  getpixel covers (fold_left Image_draw ops img) x y = None.
Proof.
  induction 1 as [|i op idx' ops' (fill & ->) _ IH]; intros img x y Hv; simpl.
  - exact Hv.
  - apply IH. simpl. now rewrite Hv.
Qed.

(** A property of the ground and of every fill is a property of every
    pixel, whatever each disc covers. *)
Lemma getpixel_rings_invariant (Q : Z * Z * Z * Z -> Prop) (cx cy : Z)
    (idx : list Z) (ops : list draw_op) :
  Forall2 (fun (i : Z) (op : draw_op) =>
             exists fill, op = Ellipse (Box (cx - i) (cy - i) (cx + i) (cy + i)) fill /\
                          Q (rgba fill))
          idx ops ->
  forall img x y v, getpixel covers img x y = Some v -> Q v ->
  exists v', getpixel covers (fold_left Image_draw ops img) x y = Some v' /\ Q v'.
Proof.
  induction 1 as [|i op idx' ops' (fill & -> & Hfill) _ IH]; intros img x y v Hv HQ; simpl.
  - eauto.
  - eapply IH.
    + simpl. rewrite Hv. reflexivity.
    + destruct (covers (cx - i) (cy - i) (cx + i) (cy + i) x y); assumption.
Qed.

(** X5. Whatever pixels Pillow's rasteriser covers with each disc: after
    the gradient is drawn on a canvas of side 1 to 640, every pixel of the
    canvas is fully opaque (alpha 255) and each of its colour channels lies
    in 0..255; outside the canvas [getpixel] has no value. *)
Theorem gradient_stays_opaque (size x y : Z) :
  1 <= size <= 640 ->
  exists radius cx cy g,
    draw_circle_gradient (Image_new "RGBA" (size, size) background) = Ok (radius, cx, cy, g) /\
    (0 <= x < size -> 0 <= y < size ->
     exists p, getpixel covers g x y = Some p /\ opaque_byte_pixel p) /\
    (~ (0 <= x < size /\ 0 <= y < size) -> getpixel covers g x y = None).
Proof.
  intros Hsize.
  destruct (gradient_rings (Image_new "RGBA" (size, size) background) size)
    as (ops & Hrun & Hrings); [reflexivity | lia |].
  assert (Hrad : 2 * size / 5 <= 256) by (apply Z.div_le_upper_bound; lia).
  eexists _, _, _, _. split; [exact Hrun|].
  assert (Hshape : Forall2 (fun (i : Z) (op : draw_op) =>
             exists fill, op = Ellipse (Box (size / 2 - i) (size / 2 - i)
                                            (size / 2 + i) (size / 2 + i)) fill /\
                          opaque_byte_pixel (rgba fill))
            (countdown (2 * size / 5)) ops).
  { apply Forall2_In_l in Hrings.
    eapply Forall2_impl; [exact Hrings|].
    intros i op (Hi & fill & Hfill & ->). exists fill. split; [reflexivity|].
    apply countdown_bounds in Hi. eapply ring_fill_byte; eauto. }
  split.
  - intros Hx Hy.
    apply (getpixel_rings_invariant opaque_byte_pixel _ _ _ _ Hshape _ x y (rgba background)).
    + simpl. destruct (Z.leb_spec 0 x), (Z.ltb_spec x size), (Z.leb_spec 0 y),
        (Z.ltb_spec y size); simpl; solve [reflexivity | lia].
    + simpl. lia.
  - intros Hout.
    assert (Hbase : getpixel covers (Image_new "RGBA" (size, size) background) x y = None).
    { simpl. destruct (Z.leb_spec 0 x), (Z.ltb_spec x size), (Z.leb_spec 0 y),
        (Z.ltb_spec y size); simpl; solve [reflexivity | lia]. }
    apply (getpixel_rings_none (size / 2) (size / 2) (countdown (2 * size / 5)));
      [|exact Hbase].
    eapply Forall2_impl; [exact Hshape|]. intros i op (fill & -> & _). eauto.
Qed.

End AnyRasteriser.

(** X5 with the geometric rasteriser, at the centre of the 16-pixel canvas
    and at a point outside it. *)
Lemma gradient_stays_opaque_witness :
  (exists radius cx cy g,
     draw_circle_gradient (Image_new "RGBA" (16, 16) background) = Ok (radius, cx, cy, g) /\
     (0 <= 8 < 16 -> 0 <= 8 < 16 ->
      exists p, getpixel disc_covers g 8 8 = Some p /\ opaque_byte_pixel p) /\
     (~ (0 <= 8 < 16 /\ 0 <= 8 < 16) -> getpixel disc_covers g 8 8 = None)) /\
  (exists radius cx cy g,
     draw_circle_gradient (Image_new "RGBA" (16, 16) background) = Ok (radius, cx, cy, g) /\
     (0 <= 16 < 16 -> 0 <= 3 < 16 ->
      exists p, getpixel disc_covers g 16 3 = Some p /\ opaque_byte_pixel p) /\
     (~ (0 <= 16 < 16 /\ 0 <= 3 < 16) -> getpixel disc_covers g 16 3 = None)).
Proof.
  split; apply (gradient_stays_opaque disc_covers 16); lia.
Defined.

(** X6. For any rasteriser meeting [ellipse_contract], after the gradient
    is drawn on a canvas of side 3 to 640: the centre pixel holds the fill of
    the innermost ring, the four pixels where the disc meets its box hold the
    first brand colour, and every pixel of the canvas outside the box of the
    outermost disc still holds the background colour. *)
Theorem gradient_disc_pixels (covers : Z -> Z -> Z -> Z -> Z -> Z -> bool) (size : Z) :
  ellipse_contract covers ->
  3 <= size <= 640 ->
  exists radius cx g inner,
    radius = 2 * size / 5 /\ cx = size / 2 /\
    draw_circle_gradient (Image_new "RGBA" (size, size) background) = Ok (radius, cx, cx, g) /\
    ring_fill radius 1 = Ok inner /\
    getpixel covers g cx cx = Some (rgba inner) /\
    getpixel covers g (cx + radius) cx = Some (46, 227, 255, 255) /\
    getpixel covers g (cx - radius) cx = Some (46, 227, 255, 255) /\
    getpixel covers g cx (cx + radius) = Some (46, 227, 255, 255) /\
    getpixel covers g cx (cx - radius) = Some (46, 227, 255, 255) /\
    (forall x y, 0 <= x < size -> 0 <= y < size ->
       ~ (cx - radius <= x <= cx + radius /\ cx - radius <= y <= cx + radius) ->
       getpixel covers g x y = Some (5, 12, 26, 255)).
Proof.
  intros Hcontract Hsize.
  destruct (gradient_pixels covers Hcontract size Hsize)
    as (img & inner & outer & Hrun & Hin & Hout & Hc & He & Hw & Hs & Hn).
  destruct (gradient_rings (Image_new "RGBA" (size, size) background) size)
    as (ops & Hrun' & Hrings); [reflexivity | lia |].
  assert (Hradius : 1 <= 2 * size / 5 <= 256).
  { split; [Z.div_mod_to_equations; lia | apply Z.div_le_upper_bound; lia]. }
  destruct (fill_in_range_inv _ _ (fill_in_range_holds (2 * size / 5) (2 * size / 5)
                                     ltac:(lia) ltac:(lia)))
    as (r & g & b & Hfill & _ & _ & _ & Hrim).
  specialize (Hrim eq_refl). injection Hrim as -> -> ->.
  rewrite Hfill in Hout. injection Hout as <-.
  exists (2 * size / 5), (size / 2), img, inner.
  repeat (split; [first [reflexivity | assumption]|]).
  intros x y Hx Hy Houtside.
  rewrite Hrun in Hrun'. injection Hrun' as ->.
  rewrite (getpixel_rings_outside covers Hcontract (size / 2) (size / 2)
             (countdown (2 * size / 5)) ops x y).
  - simpl. destruct (Z.leb_spec 0 x), (Z.ltb_spec x size), (Z.leb_spec 0 y),
      (Z.ltb_spec y size); simpl; solve [reflexivity | lia].
  - eapply Forall2_impl; [exact Hrings|]. intros i op (fill & _ & ->). eauto.
  - apply List.Forall_forall. intros i Hi. apply countdown_bounds in Hi. lia.
Qed.

(** X6 with the geometric rasteriser on the 250-pixel canvas. *)
Lemma gradient_disc_pixels_witness :
  exists radius cx g inner,
    radius = 2 * 250 / 5 /\ cx = 250 / 2 /\
    draw_circle_gradient (Image_new "RGBA" (250, 250) background) = Ok (radius, cx, cx, g) /\
    ring_fill radius 1 = Ok inner /\
    getpixel disc_covers g cx cx = Some (rgba inner) /\
    getpixel disc_covers g (cx + radius) cx = Some (46, 227, 255, 255) /\
    getpixel disc_covers g (cx - radius) cx = Some (46, 227, 255, 255) /\
    getpixel disc_covers g cx (cx + radius) = Some (46, 227, 255, 255) /\
    getpixel disc_covers g cx (cx - radius) = Some (46, 227, 255, 255) /\
    (forall x y, 0 <= x < 250 -> 0 <= y < 250 ->
       ~ (cx - radius <= x <= cx + radius /\ cx - radius <= y <= cx + radius) ->
       getpixel disc_covers g x y = Some (5, 12, 26, 255)).
Proof.
  apply (gradient_disc_pixels disc_covers 250); [exact disc_covers_contract | lia].
Defined.

(** *** The rings against exact arithmetic, and from rim to centre *)

Lemma steps_checked :
  forallb (fun radius => forallb (ring_step_ok radius) (countdown radius)) (countdown 256) = true.
Proof. vm_cast_no_check (eq_refl true). Qed.

Lemma ring_step_ok_holds (radius i : Z) :
  1 <= i <= radius -> radius <= 256 -> ring_step_ok radius i = true.
Proof.
  intros Hi Hr. pose proof steps_checked as Hall.
  rewrite forallb_forall in Hall.
  specialize (Hall radius (countdown_In 256 radius ltac:(lia))).
  rewrite forallb_forall in Hall. apply Hall, countdown_In, Hi.
Qed.

Lemma countdown_lookup (radius : Z) (n : nat) (i : Z) :
  countdown radius !! n = Some i -> i = radius - Z.of_nat n /\ (n < Z.to_nat radius)%nat.
Proof.
  unfold countdown. rewrite list_lookup_fmap.
  destruct (seq 0 (Z.to_nat radius) !! n) as [k|] eqn:Hk; [|discriminate].
  apply lookup_seq in Hk as [-> Hlt]. simpl. intros [= <-]. split; [lia | exact Hlt].
Qed.

(** X7. On a canvas of side at most 640 the gradient never gets lighter
    towards the centre: every disc is filled with a colour that is, channel
    by channel, at most the colour of the disc drawn just before it (the next
    larger one). *)
Theorem gradient_darkens_inwards (img : Image) (size : Z) :
  width img = size ->
  0 <= size <= 640 ->
  exists ops,
    draw_circle_gradient img
    = Ok (2 * size / 5, size / 2, size / 2, fold_left Image_draw ops img) /\
    forall (n : nat) (op op' : draw_op),
      ops !! n = Some op -> ops !! S n = Some op' ->
      ink_leb (op_fill op') (op_fill op) = true.
Proof.
  intros Hw Hsize.
  destruct (gradient_rings img size Hw Hsize) as (ops & Hrun & Hrings).
  assert (Hrad : 2 * size / 5 <= 256) by (apply Z.div_le_upper_bound; lia).
  exists ops. split; [exact Hrun|].
  intros n op op' Hop Hop'.
  destruct (Forall2_lookup_r _ _ _ _ _ Hrings Hop) as (i & Hi & fill & Hfill & ->).
  destruct (Forall2_lookup_r _ _ _ _ _ Hrings Hop') as (i' & Hi' & fill' & Hfill' & ->).
  apply countdown_lookup in Hi as [Hi Hn]. apply countdown_lookup in Hi' as [Hi' Hn'].
  assert (Hnext : i = i' + 1) by lia.
  pose proof (ring_step_ok_holds (2 * size / 5) i' ltac:(lia) Hrad) as Hstep.
  unfold ring_step_ok in Hstep. rewrite Hfill' in Hstep.
  destruct fill' as [r' g' b'|r' g' b' a']; [discriminate|].
  apply andb_prop in Hstep as [_ Hstep].
  destruct (Z.ltb_spec i' (2 * size / 5)) as [_|Hge]; [|lia].
  rewrite <- Hnext, Hfill in Hstep.
  destruct fill as [r g b|r g b a]; [discriminate|].
  exact Hstep.
Qed.

(** X7 on the 16-pixel canvas. *)
Lemma gradient_darkens_inwards_witness :
  exists ops,
    draw_circle_gradient (Image_new "RGBA" (16, 16) background)
    = Ok (2 * 16 / 5, 16 / 2, 16 / 2, fold_left Image_draw ops (Image_new "RGBA" (16, 16) background)) /\
    forall (n : nat) (op op' : draw_op),
      ops !! n = Some op -> ops !! S n = Some op' ->
      ink_leb (op_fill op') (op_fill op) = true.
Proof.
  apply (gradient_darkens_inwards (Image_new "RGBA" (16, 16) background) 16); [reflexivity | lia].
Defined.

(** X8. On a canvas of side at most 640 each channel of each disc's fill,
    computed in binary64 and truncated, is the blend
    [(colors[0][c] * i + colors[1][c] * (radius - i)) // radius] of exact
    integer arithmetic or one less than it; one less does occur (radius 10,
    ring 3, green: 205 against 206). *)
Theorem gradient_fills_near_exact (img : Image) (size : Z) :
  width img = size ->
  0 <= size <= 640 ->
  (exists ops,
     draw_circle_gradient img
     = Ok (2 * size / 5, size / 2, size / 2, fold_left Image_draw ops img) /\
     Forall2 (fun (i : Z) (op : draw_op) =>
                exists r g b : Z,
                  op_fill op = RGBA r g b 255 /\
                  exact_blend (colors_ 0 0) (colors_ 1 0) (2 * size / 5) i - 1 <= r
                  <= exact_blend (colors_ 0 0) (colors_ 1 0) (2 * size / 5) i /\
                  exact_blend (colors_ 0 1) (colors_ 1 1) (2 * size / 5) i - 1 <= g
                  <= exact_blend (colors_ 0 1) (colors_ 1 1) (2 * size / 5) i /\
                  exact_blend (colors_ 0 2) (colors_ 1 2) (2 * size / 5) i - 1 <= b
                  <= exact_blend (colors_ 0 2) (colors_ 1 2) (2 * size / 5) i)
             (countdown (2 * size / 5)) ops) /\
  ring_fill 10 3 = Ok (RGBA 13 205 189 255) /\
  exact_blend (colors_ 0 1) (colors_ 1 1) 10 3 = 206.
Proof.
  intros Hw Hsize. split; [|split; vm_compute; reflexivity].
  destruct (gradient_rings img size Hw Hsize) as (ops & Hrun & Hrings).
  assert (Hrad : 2 * size / 5 <= 256) by (apply Z.div_le_upper_bound; lia).
  exists ops. split; [exact Hrun|].
  apply Forall2_In_l in Hrings. eapply Forall2_impl; [exact Hrings|].
  intros i op (Hi & fill & Hfill & ->). apply countdown_bounds in Hi.
  pose proof (ring_step_ok_holds (2 * size / 5) i Hi Hrad) as Hstep.
  destruct (fill_in_range_inv _ _ (fill_in_range_holds (2 * size / 5) i Hi Hrad))
    as (r & g & b & Hfill' & _).
  rewrite Hfill' in Hfill. injection Hfill as <-.
  unfold ring_step_ok in Hstep. rewrite Hfill' in Hstep. unfold between in Hstep.
  repeat (apply andb_prop in Hstep as [Hstep ?]).
  exists r, g, b. simpl. repeat split; lia.
Qed.

(** X8 on the 25-pixel canvas, whose radius is 10. *)
Lemma gradient_fills_near_exact_witness :
  (exists ops,
     draw_circle_gradient (Image_new "RGBA" (25, 25) background)
     = Ok (2 * 25 / 5, 25 / 2, 25 / 2,
           fold_left Image_draw ops (Image_new "RGBA" (25, 25) background)) /\
     Forall2 (fun (i : Z) (op : draw_op) =>
                exists r g b : Z,
                  op_fill op = RGBA r g b 255 /\
                  exact_blend (colors_ 0 0) (colors_ 1 0) (2 * 25 / 5) i - 1 <= r
                  <= exact_blend (colors_ 0 0) (colors_ 1 0) (2 * 25 / 5) i /\
                  exact_blend (colors_ 0 1) (colors_ 1 1) (2 * 25 / 5) i - 1 <= g
                  <= exact_blend (colors_ 0 1) (colors_ 1 1) (2 * 25 / 5) i /\
                  exact_blend (colors_ 0 2) (colors_ 1 2) (2 * 25 / 5) i - 1 <= b
                  <= exact_blend (colors_ 0 2) (colors_ 1 2) (2 * 25 / 5) i)
             (countdown (2 * 25 / 5)) ops) /\
  ring_fill 10 3 = Ok (RGBA 13 205 189 255) /\
  exact_blend (colors_ 0 1) (colors_ 1 1) 10 3 = 206.
Proof.
  apply (gradient_fills_near_exact (Image_new "RGBA" (25, 25) background) 25);
    [reflexivity | lia].
Defined.

(** *** The renderers only draw *)

Lemma Image_size_fold_left (ops : list draw_op) (img : Image) :
  Image_size (fold_left Image_draw ops img) = Image_size img.
Proof.
  revert img. induction ops as [|op rest IH]; intros img; simpl; [reflexivity|].
  now rewrite IH.
Qed.

(** Whatever the size of the canvas, a gradient that returns has added
    drawing calls to it and done nothing else. *)
Lemma gradient_only_draws (img g : Image) (radius cx cy : Z) :
  draw_circle_gradient img = Ok (radius, cx, cy, g) ->
  exists ops, g = fold_left Image_draw ops img.
Proof.
  destruct (py_int (width img * 0.4%float)%py) as [r|e] eqn:Hr.
  - rewrite (gradient_unfold img r Hr). unfold gradient_spec.
    destruct (map_result _ _) as [ops|e]; [|discriminate].
    simpl. intros [= _ _ _ <-]. eauto.
  - unfold draw_circle_gradient. unfold bind at 1, gets. unfold bind at 1, lift at 1.
    rewrite Hr. discriminate.
Qed.

Lemma render_size (size : Z) (img : Image) :
  render size = Ok img -> Image_size img = (size, size).
Proof.
  unfold render.
  destruct (draw_circle_gradient _) as [[[[radius cx] cy] g]|e] eqn:Hg; [|discriminate].
  apply gradient_only_draws in Hg as [ops ->].
  rewrite draw_accent_appends.
  destruct (accent_calls radius cx cy size) as [aops|e]; [|discriminate].
  intros [= <-]. now rewrite !Image_size_fold_left.
Qed.

(** *** A file in the way of the output directory *)

Lemma node_at_nonempty (m : gmap path node) (p : path) :
  p <> [] -> node_at m p = m !! p.
Proof. destruct p; [contradiction | reflexivity]. Qed.

(** In a well-formed file system nothing lies below a file. *)
Lemma absent_below_file (m : gmap path node) (q k : path) :
  fs_wf m -> is_file m q = true -> k <> [] -> m !! (q ++ k) = None.
Proof.
  intros Hwf Hq. induction k as [|x k' IH] using rev_ind; intros Hk; [contradiction|].
  destruct (m !! (q ++ k' ++ [x])) as [n|] eqn:Hnode; [exfalso | reflexivity].
  apply Hwf in Hnode. rewrite app_assoc in Hnode.
  change ((q ++ k') ++ [x]) with (joinpath (q ++ k') x) in Hnode.
  rewrite parent_joinpath in Hnode.
  destruct k' as [|y k''].
  - rewrite app_nil_r in Hnode. apply is_dir_not_file in Hnode. congruence.
  - unfold is_dir in Hnode.
    rewrite node_at_nonempty, IH in Hnode by (try destruct q; discriminate).
    discriminate.
Qed.

Lemma mkdir_flat_under_file (m : gmap path node) (p : path) (d : bytes) :
  node_at m p = None -> node_at m (parent p) = Some (File d) ->
  mkdir_flat p true m = Raise NotADirectoryError.
Proof.
  intros Hp Hparent. unfold mkdir_flat, os_mkdir, is_dir. now rewrite Hp, Hparent.
Qed.

Lemma mkdir_flat_orphan (m : gmap path node) (p : path) (exist_ok : bool) :
  node_at m p = None -> node_at m (parent p) = None ->
  mkdir_flat p exist_ok m = Raise FileNotFoundError.
Proof.
  intros Hp Hparent. unfold mkdir_flat, os_mkdir. now rewrite Hp, Hparent.
Qed.

(** [mkdir] under a file fails with [NotADirectoryError], however deep. *)
Lemma mkdir_rev_below_file (m : gmap path node) (q k : path) :
  fs_wf m -> is_file m q = true -> k <> [] ->
  mkdir_rev (rev (q ++ k)) true true m = Raise NotADirectoryError.
Proof.
  intros Hwf Hq. induction k as [|x k' IH] using rev_ind; intros Hk; [contradiction|].
  assert (Habs : node_at m (joinpath (q ++ k') x) = None).
  { rewrite node_at_joinpath. unfold joinpath. rewrite <- app_assoc.
    apply absent_below_file; [assumption..|]. destruct k'; discriminate. }
  assert (Hrev : rev (x :: rev (q ++ k')) = joinpath (q ++ k') x).
  { simpl. now rewrite rev_involutive. }
  rewrite app_assoc, rev_unit. cbn [mkdir_rev]. rewrite Hrev.
  destruct k' as [|y k''].
  - rewrite app_nil_r in *. unfold is_file in Hq.
    destruct (node_at m q) as [[|d]|] eqn:Hnq; try discriminate.
    rewrite (mkdir_flat_under_file m _ d); [reflexivity | exact Habs |].
    now rewrite parent_joinpath.
  - rewrite mkdir_flat_orphan; [now rewrite IH by discriminate | exact Habs |].
    rewrite parent_joinpath, node_at_nonempty by (destruct q; discriminate).
    apply absent_below_file; [assumption..|discriminate].
Qed.

(** [mkdir] on a path that is a file fails with [FileExistsError]. *)
Lemma mkdir_rev_on_file (m : gmap path node) (p : path) (parents : bool) :
  is_file m p = true -> mkdir_rev (rev p) parents true m = Raise FileExistsError.
Proof.
  intros Hp.
  assert (Hflat : mkdir_flat p true m = Raise FileExistsError).
  { unfold mkdir_flat, os_mkdir, is_dir. unfold is_file in Hp.
    destruct (node_at m p) as [[|d]|]; try discriminate. reflexivity. }
  destruct (rev p) as [|x rparent] eqn:Hrev; cbn [mkdir_rev];
    rewrite <- Hrev, rev_involutive, Hflat; reflexivity.
Qed.

Section Blocked.
Context `{Pillow}.

(** X9. On a well-formed file system with a file at a prefix of the output
    directory path the run stops at [mkdir], before any drawing or writing:
    with [FileExistsError] when the file is at the output directory path
    itself, with [NotADirectoryError] when it is further up. *)
Theorem run_blocked_by_file (w : World) (q : path) :
  fs_wf (fs w) ->
  q `prefix_of` logo_dir ->
  is_file (fs w) q = true ->
  (q = logo_dir -> main w = Raise FileExistsError) /\
  (q <> logo_dir -> main w = Raise NotADirectoryError).
Proof.
  intros Hwf [k Hk] Hq. split.
  - intros ->. unfold main. apply bind_Raise. unfold Path_mkdir.
    now rewrite mkdir_rev_on_file.
  - intros Hne. unfold main. apply bind_Raise. unfold Path_mkdir.
    rewrite Hk, mkdir_rev_below_file; [reflexivity | assumption..|].
    intros ->. rewrite app_nil_r in Hk. congruence.
Qed.

(** X10. After a successful run each of the three PNG files holds the
    encoding of an image whose dimensions are those of its pair in
    [exports]: 16 x 16, 32 x 32 and 180 x 180. *)
Theorem exported_canvases_are_square (w w' : World) :
  main w = Ok (tt, w') ->
  Forall (fun item : Z * string =>
            exists img,
              fs w' !! joinpath logo_dir (snd item) = Some (File (png_encode img)) /\
              Image_size img = (fst item, fst item) /\
              width img = fst item /\ height img = fst item)
         exports.
Proof.
  intros Hmain.
  apply main_Ok_inv in Hmain as (m & img16 & img32 & img180 & _ & H16 & H32 & H180 & ->).
  apply render_size in H16, H32, H180. cbn [fs].
  repeat constructor; cbn [fst snd];
    [exists img16 | exists img32 | exists img180];
    (split; [lookup_output|]); unfold width, height;
    first [rewrite H16 | rewrite H32 | rewrite H180]; auto.
Qed.

End Blocked.

Lemma blocked_world_wf : fs_wf (fs blocked_world).
Proof.
  intros p n Hp. simpl in Hp. apply lookup_singleton_Some in Hp as [<- _]. reflexivity.
Qed.

(** X9 on a world with a file named [C:]. *)
Lemma run_blocked_by_file_witness :
  (["C:"] = logo_dir -> @main dims_codec blocked_world = Raise FileExistsError) /\
  (["C:"] <> logo_dir -> @main dims_codec blocked_world = Raise NotADirectoryError).
Proof.
  apply (@run_blocked_by_file dims_codec blocked_world ["C:"]).
  - exact blocked_world_wf.
  - now exists (tail logo_dir).
  - reflexivity.
Defined.

(** X10 on the run from an empty file system. *)
Lemma exported_canvases_are_square_witness :
  Forall (fun item : Z * string =>
            exists img,
              fs (after_run empty_world) !! joinpath logo_dir (snd item)
              = Some (File (dims_encode img)) /\
              Image_size img = (fst item, fst item) /\
              width img = fst item /\ height img = fst item)
         exports.
Proof.
  exact (@exported_canvases_are_square dims_codec empty_world (after_run empty_world) first_run).
Defined.

(** *** Where the second brand colour appears *)

Lemma threshold_checked :
  forallb (fun radius => Bool.eqb (paints_second radius) (95 <=? radius))
          (0 :: countdown 256) = true.
Proof. vm_cast_no_check (eq_refl true). Qed.

(** X11. On a canvas of side at most 640 every ring of the gradient is
    filled with an opaque colour whose channels lie between the two brand
    colours' channels, the rim ring with exactly [colors[0]]; and some ring is
    filled with exactly [colors[1] = (0, 197, 161)] if and only if the radius
    is at least 95, that is from side 238 on. *)
Theorem second_colour_threshold (img : Image) (size : Z) :
  width img = size ->
  0 <= size <= 640 ->
  exists ops,
    draw_circle_gradient img
    = Ok (2 * size / 5, size / 2, size / 2, fold_left Image_draw ops img) /\
    Forall2 (fun (i : Z) (op : draw_op) =>
               exists r g b : Z,
                 op = Ellipse (Box (size / 2 - i) (size / 2 - i) (size / 2 + i) (size / 2 + i))
                              (RGBA r g b 255) /\
                 Z.min (colors_ 0 0) (colors_ 1 0) <= r <= Z.max (colors_ 0 0) (colors_ 1 0) /\
                 Z.min (colors_ 0 1) (colors_ 1 1) <= g <= Z.max (colors_ 0 1) (colors_ 1 1) /\
                 Z.min (colors_ 0 2) (colors_ 1 2) <= b <= Z.max (colors_ 0 2) (colors_ 1 2) /\
                 (i = 2 * size / 5 -> (r, g, b) = (46, 227, 255)))
            (countdown (2 * size / 5)) ops /\
    ((exists op, In op ops /\ op_fill op = RGBA 0 197 161 255) <-> 95 <= 2 * size / 5).
Proof.
  intros Hw Hsize.
  destruct (fills_between img size Hw Hsize) as (ops & Hrun & Hfills).
  exists ops. split; [exact Hrun|]. split.
  { eapply Forall2_impl; [exact Hfills|].
    intros i op (r & g & b & _ & _ & Hop & Hbounds). exists r, g, b. auto. }
  set (radius := 2 * size / 5) in *.
  assert (Hrad : 0 <= radius <= 256).
  { subst radius. split; [apply Z.div_pos; lia | apply Z.div_le_upper_bound; lia]. }
  pose proof threshold_checked as Hall. rewrite forallb_forall in Hall.
  assert (Hin : In radius (0 :: countdown 256)).
  { destruct (Z.eq_dec radius 0) as [->|]; [now left | right; apply countdown_In; lia]. }
  specialize (Hall radius Hin). apply Bool.eqb_prop in Hall.
  rewrite <- Z.leb_le, <- Hall. unfold paints_second. rewrite existsb_exists.
  split.
  - intros (op & Hop & Hsecond).
    apply list_elem_of_In, list_elem_of_lookup_1 in Hop as [n Hn].
    destruct (Forall2_lookup_r _ _ _ _ _ Hfills Hn)
      as (i & _ & r & g & b & Hi & Hfill & -> & _).
    simpl in Hsecond. injection Hsecond as -> -> ->.
    exists i. split; [exact Hi|]. unfold not_second_colour. rewrite Hfill. reflexivity.
  - intros (i & Hi & Hpaint).
    apply list_elem_of_In, list_elem_of_lookup_1 in Hi as [n Hn].
    destruct (Forall2_lookup_l _ _ _ _ _ Hfills Hn)
      as (op & Hop & r & g & b & _ & Hfill & -> & _).
    eexists. split; [apply list_elem_of_In; eapply list_elem_of_lookup_2; exact Hop|].
    unfold not_second_colour in Hpaint. rewrite Hfill, Bool.negb_involutive in Hpaint.
    apply andb_prop in Hpaint as [Hpaint Hb]. apply andb_prop in Hpaint as [Hr Hg].
    apply Z.eqb_eq in Hr, Hg, Hb. simpl. now rewrite Hr, Hg, Hb.
Qed.

(** X11 on the 250-pixel canvas, whose radius is 100. *)
Lemma second_colour_threshold_witness :
  exists ops,
    draw_circle_gradient (Image_new "RGBA" (250, 250) background)
    = Ok (2 * 250 / 5, 250 / 2, 250 / 2,
          fold_left Image_draw ops (Image_new "RGBA" (250, 250) background)) /\
    Forall2 (fun (i : Z) (op : draw_op) =>
               exists r g b : Z,
                 op = Ellipse (Box (250 / 2 - i) (250 / 2 - i) (250 / 2 + i) (250 / 2 + i))
                              (RGBA r g b 255) /\
                 Z.min (colors_ 0 0) (colors_ 1 0) <= r <= Z.max (colors_ 0 0) (colors_ 1 0) /\
                 Z.min (colors_ 0 1) (colors_ 1 1) <= g <= Z.max (colors_ 0 1) (colors_ 1 1) /\
                 Z.min (colors_ 0 2) (colors_ 1 2) <= b <= Z.max (colors_ 0 2) (colors_ 1 2) /\
                 (i = 2 * 250 / 5 -> (r, g, b) = (46, 227, 255)))
            (countdown (2 * 250 / 5)) ops /\
    ((exists op, In op ops /\ op_fill op = RGBA 0 197 161 255) <-> 95 <= 2 * 250 / 5).
Proof.
  apply (second_colour_threshold (Image_new "RGBA" (250, 250) background) 250).
  - reflexivity.
  - lia.
Defined.

(** *** What the outputs depend on *)

Section StartState.
Context `{Pillow}.

(** X12. The four output files do not depend on what a run starts from: any
    two successful runs, whatever each finds on disk (nothing, other files,
    or the outputs of an earlier run), leave the same bytes in each of the
    four output files. *)
Theorem outputs_ignore_start_state (wa wa' wb wb' : World) :
  main wa = Ok (tt, wa') ->
  main wb = Ok (tt, wb') ->
  forall name, In name output_names ->
  exists data,
    fs wa' !! joinpath logo_dir name = Some (File data) /\
    fs wb' !! joinpath logo_dir name = Some (File data).
Proof.
  intros Ha Hb name Hname.
  apply main_Ok_inv in Ha as (ma & a16 & a32 & a180 & _ & Ha16 & Ha32 & Ha180 & ->).
  apply main_Ok_inv in Hb as (mb & b16 & b32 & b180 & _ & Hb16 & Hb32 & Hb180 & ->).
  rewrite Ha16 in Hb16. rewrite Ha32 in Hb32. rewrite Ha180 in Hb180.
  injection Hb16 as <-. injection Hb32 as <-. injection Hb180 as <-.
  cbn [fs]. simpl in Hname.
  destruct Hname as [<-|[<-|[<-|[<-|[]]]]]; eexists; split; lookup_output.
Qed.

End StartState.

(** X12 on the run from an empty file system and the run that follows it. *)
Lemma outputs_ignore_start_state_witness :
  Forall (fun name =>
            exists data,
              fs (after_run empty_world) !! joinpath logo_dir name = Some (File data) /\
              fs (after_run (after_run empty_world)) !! joinpath logo_dir name
              = Some (File data))
         output_names.
Proof.
  apply List.Forall_forall.
  exact (@outputs_ignore_start_state dims_codec _ _ _ _ first_run second_run).
Defined.
